(** * The ZooKeeper registry client of dubbogo (registry/zk/zk_client.go)

    A shallow embedding of [zookeeperClient]: the watch registry
    ([registerEvent], [unregisterEvent]), the event handler of the
    background goroutine ([handleZkEvent]), the shutdown path ([stop],
    [Close]) and the node operations ([Create], [Delete], [RegisterTemp],
    [RegisterTempSeq], [getChildren], [getChildrenW], [existW]).

    Sequential code is written in a small state-and-panic monad over the
    fields of the client struct; the goroutines that share the client are
    interleaved by a step relation whose atomic steps are the sections the
    source runs under [z.Lock()]. *)

From Stdlib Require Import ZArith Lia Ascii.
From Stdlib.Strings Require Import Byte.
From stdpp Require Import gmap strings list fin_maps.

Open Scope string_scope.
Open Scope list_scope.
Open Scope nat_scope.
Open Scope stdpp_scope.

(** ** The Go library functions the client calls *)

Module Go.

(** [strings.HasPrefix(s, prefix)]:
    [len(s) >= len(prefix) && s[0:len(prefix)] == prefix]. *)
Definition HasPrefix (s prefix : string) : bool :=
  (String.length prefix <=? String.length s)%nat
  && String.eqb (String.substring 0 (String.length prefix) s) prefix.

(** [strings.Split(s, sep)] for a one-byte separator: the substrings
    between the separators; a string without separator is returned as
    the only element, so the result is never empty. *)
Fixpoint Split (s : string) (sep : Ascii.ascii) : list string :=
  match s with
  | EmptyString => [EmptyString]
  | String c s' =>
      if Ascii.eqb c sep then EmptyString :: Split s' sep
      else match Split s' sep with
           | x :: r => String c x :: r
           | [] => [String c EmptyString]
           end
  end.

(** [strings.Join(elems, sep)]. *)
Fixpoint Join (elems : list string) (sep : string) : string :=
  match elems with
  | [] => ""
  | [x] => x
  | x :: r => x +:+ sep +:+ Join r sep
  end.

(** One path name element processed by [path.Clean]; [out] holds the
    elements kept so far, innermost first. *)
Definition clean_elem (rooted : bool) (out : list string) (e : string)
  : list string :=
  if String.eqb e "" then out
  else if String.eqb e "." then out
  else if String.eqb e ".." then
    match out with
    | top :: rest => if String.eqb top ".." then e :: out else rest
    | [] => if rooted then [] else [e]
    end
  else e :: out.

(** [path.Clean(p)]: multiple slashes become one, [.] elements are
    dropped, an inner [..] removes the element before it, a [..] at the
    beginning of a rooted path is dropped; the empty result is ["."]. *)
Definition Clean (p : string) : string :=
  match p with
  | EmptyString => "."
  | String c _ =>
      let rooted := Ascii.eqb c "/"%char in
      let out := rev (fold_left (clean_elem rooted) (Split p "/"%char) []) in
      let r := (if rooted then "/" else "") +:+ Join out "/" in
      if String.eqb r "" then "." else r
  end.

(** [path.Join(elem...)]: the elements from the first non-empty one on,
    joined by slashes and cleaned; [""] when all of them are empty. *)
Fixpoint path_Join (elem : list string) : string :=
  match elem with
  | [] => ""
  | e :: r => if String.eqb e "" then path_Join r else Clean (Join elem "/")
  end.

End Go.

Example Split_empty : Go.Split "" "/"%char = [""].
Proof. reflexivity. Qed.

Example Split_abc : Go.Split "/a/b/c" "/"%char = [""; "a"; "b"; "c"].
Proof. reflexivity. Qed.

Example path_Join_first : Go.path_Join [""; "/"; "a"] = "/a".
Proof. reflexivity. Qed.

Example path_Join_next : Go.path_Join ["/a"; "/"; "b"] = "/a/b".
Proof. reflexivity. Qed.

Example path_Join_dotdot : Go.path_Join ["/a/b"; "/"; ".."] = "/a".
Proof. reflexivity. Qed.

Example HasPrefix_swapped :
  Go.HasPrefix "/a/b" "/a" = true /\ Go.HasPrefix "/a" "/a/b" = false.
Proof. split; reflexivity. Qed.

(** ** Package zk as the client sees it

    The client imports [github.com/samuel/go-zookeeper/zk]; its sources
    are not part of the client's file.  The constants, the [Stat] type and
    the methods of [*zk.Conn] that the client uses are the fields of a
    class, so every statement below holds for every implementation of the
    package.  [Store] is the state of the coordination store as observed
    through the session. *)

(** The error values of package zk that the client compares against, and
    every other error a session call can return. *)
Inductive zk_error :=
| ErrNodeExists
| ErrNoNode
| ErrZk (code : Z).

Global Instance zk_error_eq_dec : EqDecision zk_error.
Proof. solve_decision. Defined.

Global Instance byte_eq_dec : EqDecision byte := Byte.byte_eq_dec.

(** [zk.WorldACL(perms)]. *)
Inductive ACL := WorldACL (perms : Z).

Global Instance ACL_eq_dec : EqDecision ACL.
Proof. solve_decision. Defined.

(** A receive-only channel of store events ([<-chan zk.Event]), by identity. *)
Definition watch := nat.

Class ZkPackage := {
  StateDisconnected : Z;
  StateConnecting : Z;
  StateConnected : Z;
  StateHasSession : Z;
  EventNodeDataChanged : Z;
  EventNodeChildrenChanged : Z;
  (** the case constants of the switch in [handleZkEvent]: the Go compiler
      rejects a switch with duplicate constant cases *)
  switch_cases_distinct :
    NoDup [StateDisconnected; EventNodeDataChanged; EventNodeChildrenChanged;
           StateConnecting; StateConnected; StateHasSession];
  FlagEphemeral : Z;
  FlagSequence : Z;
  PermAll : Z;
  Stat : Type;
  Store : Type;
  conn_Create : string -> list byte -> Z -> ACL -> Store ->
                (string * option zk_error) * Store;
  conn_Delete : string -> Z -> Store -> option zk_error * Store;
  conn_Children : string -> Store ->
                  (list string * option Stat * option zk_error) * Store;
  conn_ChildrenW : string -> Store ->
                   (list string * option Stat * option watch * option zk_error)
                   * Store;
  conn_ExistsW : string -> Store ->
                 (bool * option Stat * option watch * option zk_error) * Store;
  (** [Conn.Close()]: the store once the session has ended (the store
      deletes the ephemeral nodes of a session that ends) *)
  conn_Close : Store -> Store;
}.

(** [zk.Event]. *)
Record Event := {
  Type_ : Z;
  Server : string;
  Path : string;
  State : Z;
  Err : option zk_error;
}.

(** ** Errors of the client *)

Inductive error :=
| ZK_CLIENT_CONN_NIL_ERR            (* errors.New("zookeeperclient{conn} is nil") *)
| ZkError (e : zk_error)            (* an error returned by the session *)
| Annotated (cause : error) (msg : string)   (* built by jerrors.Annotatef *)
| Errorf (msg : string).                     (* built by jerrors.Errorf *)

Global Instance error_eq_dec : EqDecision error.
Proof. solve_decision. Defined.

(** [jerrors.Annotatef(other, format, args...)] is nil for a nil [other]. *)
Definition jerrors_Annotatef (other : option error) (msg : string)
  : option error :=
  match other with
  | None => None
  | Some e => Some (Annotated e msg)
  end.

(** [jerrors.Cause(err)]: the error under the annotations. *)
Fixpoint jerrors_Cause (e : error) : error :=
  match e with
  | Annotated c _ => jerrors_Cause c
  | _ => e
  end.

Definition lift_zk (e : option zk_error) : option error := ZkError <$> e.

(** ** The client struct *)

(** A notification channel handle ([*chan struct{}]), compared by identity. *)
Inductive handle :=
| nil_handle
| chan_at (addr : positive).

Global Instance handle_eq_dec : EqDecision handle.
Proof. solve_decision. Defined.

(** The connection field: nil or the pointer to the session that
    [zk.Connect] returned. *)
Inductive Conn := session.

Record zookeeperClient := {
  name : string;
  zkAddrs : list string;
  conn : option Conn;
  timeout : Z;
  exit : bool;                                  (* true once close(z.exit) ran *)
  wait : nat;                                   (* counter of the WaitGroup *)
  eventRegistry : gmap string (list handle);
}.

Definition set_conn (c : option Conn) (z : zookeeperClient) :=
  {| name := name z; zkAddrs := zkAddrs z; conn := c; timeout := timeout z;
     exit := exit z; wait := wait z; eventRegistry := eventRegistry z |}.

Definition set_exit (b : bool) (z : zookeeperClient) :=
  {| name := name z; zkAddrs := zkAddrs z; conn := conn z; timeout := timeout z;
     exit := b; wait := wait z; eventRegistry := eventRegistry z |}.

Definition set_wait (n : nat) (z : zookeeperClient) :=
  {| name := name z; zkAddrs := zkAddrs z; conn := conn z; timeout := timeout z;
     exit := exit z; wait := n; eventRegistry := eventRegistry z |}.

Definition set_eventRegistry (r : gmap string (list handle)) (z : zookeeperClient) :=
  {| name := name z; zkAddrs := zkAddrs z; conn := conn z; timeout := timeout z;
     exit := exit z; wait := wait z; eventRegistry := r |}.

(** What a run does to the outside, in order. *)
Inductive effect :=
| CallCreate (path : string) (data : list byte) (flags : Z) (acl : ACL)
| CallDelete (path : string) (version : Z)
| CallChildren (path : string)
| CallChildrenW (path : string)
| CallExistsW (path : string)
| ConnClose                       (* z.conn.Close() *)
| ExitClose                       (* close(z.exit) *)
| Notify (h : handle).            (* *e <- struct{}{} *)

Global Instance effect_eq_dec : EqDecision effect.
Proof. solve_decision. Defined.

Definition is_store_call (e : effect) : bool :=
  match e with
  | CallCreate _ _ _ _ | CallDelete _ _ | CallChildren _ | CallChildrenW _
  | CallExistsW _ => true
  | _ => false
  end.

Inductive panic :=
| close_of_closed_channel        (* close(z.exit) on a closed channel *)
| conn_closed_twice              (* z.conn.Close() on a closed session *)
| slice_bounds_out_of_range.

Section Client.
Context `{ZkPackage}.

(** The client together with what it shares with the outside: the store
    behind the session, whether the session object has been closed, and
    the effects so far (latest last). *)
Record world := {
  z : zookeeperClient;
  store : Store;
  session_closed : bool;
  trace : list effect;
}.

Definition with_z (f : zookeeperClient -> zookeeperClient) (w : world) :=
  {| z := f (z w); store := store w; session_closed := session_closed w;
     trace := trace w |}.

Definition emit (e : effect) (w : world) :=
  {| z := z w; store := store w; session_closed := session_closed w;
     trace := trace w ++ [e] |}.

Definition set_store (s : Store) (w : world) :=
  {| z := z w; store := s; session_closed := session_closed w;
     trace := trace w |}.

Definition set_session_closed (w : world) :=
  {| z := z w; store := store w; session_closed := true; trace := trace w |}.

(** Sequential code: it returns, panics, or blocks for ever (nothing else
    runs in a sequential execution). *)
Inductive outcome (A : Type) :=
| Ret (a : A) (w : world)
| Panics (p : panic)
| Blocks.
Arguments Ret {A} a w.
Arguments Panics {A} p.
Arguments Blocks {A}.

Definition M (A : Type) : Type := world -> outcome A.

Definition ret {A} (a : A) : M A := fun w => Ret a w.

Definition bind {A B} (m : M A) (f : A -> M B) : M B := fun w =>
  match m w with
  | Ret a w' => f a w'
  | Panics p => Panics p
  | Blocks => Blocks
  end.

Notation "'let*' x ':=' m 'in' k" := (bind m (fun x => k))
  (at level 10, x name, m at level 100, k at level 200).
Notation "m >> k" := (bind m (fun _ => k))
  (at level 100, k at level 200, right associativity).

Definition get : M world := fun w => Ret w w.
Definition modify (f : world -> world) : M unit := fun w => Ret tt (f w).
Definition throw {A} (p : panic) : M A := fun _ => Panics p.
Definition block {A} : M A := fun _ => Blocks.

(** *** The watch registry *)

(** [registerEvent]: nothing for an empty path or a nil handle; else the
    handle is appended to the path's entry (the nil slice when absent). *)
Definition registerEvent (zkPath : string) (event : handle) : M unit :=
  if bool_decide (zkPath = "") || bool_decide (event = nil_handle) then ret tt
  else
    (* z.Lock() *)
    let* w := get in
    let a := default [] (eventRegistry (z w) !! zkPath) in
    let a := a ++ [event] in
    modify (with_z (set_eventRegistry (<[zkPath := a]> (eventRegistry (z w)))))
    (* z.Unlock() *).

(** The slice variable [a] of [unregisterEvent] while its range loop
    runs: the backing array (as long as the slice the loop started
    from) and the current length of [a]. *)
Record slice := { arr : list handle; len : nat }.

(** [arr := a; a = append(arr[:i], arr[i+1:]...)]: the elements
    [i+1 .. len-1] move one place down inside the backing array, whose
    cells from [len-1] on keep their content; [arr[i+1:]] is out of
    range when [i+1] exceeds the length of [a]. *)
Definition remove_at (i : nat) (a : slice) : M slice :=
  if decide (i + 1 ≤ len a) then
    ret {| arr := take i (arr a)
                   ++ take (len a - (i + 1)) (drop (i + 1) (arr a))
                   ++ drop (len a - 1) (arr a);
            len := len a - 1 |}
  else throw slice_bounds_out_of_range.

(** [for i, e := range a { if e == event { ... } }]: the range
    expression is evaluated once, so [i] runs over the indices of the
    slice the loop started from, and [e] is read from the backing array
    at each iteration. There is no [break] after a removal. *)
Fixpoint unregister_range (event : handle) (idx : list nat) (a : slice)
  : M slice :=
  match idx with
  | [] => ret a
  | i :: idx' =>
      match arr a !! i with
      | Some e =>
          if decide (e = event) then
            let* a' := remove_at i a in unregister_range event idx' a'
          else unregister_range event idx' a
      | None => unregister_range event idx' a
      end
  end.

Definition unregisterEvent (zkPath : string) (event : handle) : M unit :=
  if bool_decide (zkPath = "") then ret tt
  else
    (* z.Lock() *)
    let* w := get in
    match eventRegistry (z w) !! zkPath with
    | None => ret tt
    | Some a0 =>
        let a := {| arr := a0; len := length a0 |} in
        let* a := unregister_range event (seq 0 (length a0)) a in
        let a := take (len a) (arr a) in
        if (length a =? 0)%nat then
          modify (with_z (set_eventRegistry (delete zkPath (eventRegistry (z w)))))
        else
          modify (with_z (set_eventRegistry (<[zkPath := a]> (eventRegistry (z w)))))
    end
    (* z.Unlock() *).

(** *** Shutdown *)

(** The [select] on [z.exit] with a [default] branch: has the channel
    been closed? *)
Definition exit_fired : M bool := let* w := get in ret (exit (z w)).

(** [close(z.exit)]. *)
Definition close_exit : M unit :=
  let* w := get in
  if exit (z w) then throw close_of_closed_channel
  else modify (fun w => emit ExitClose (with_z (set_exit true) w)).

(** [z.conn.Close()]; the session must not be closed twice (see the
    comment on the [conn] field). *)
Definition call_Close : M unit :=
  let* w := get in
  if session_closed w then throw conn_closed_twice
  else modify (fun w => emit ConnClose
                          (set_session_closed
                             (set_store (conn_Close (store w)) w))).

Definition stop : M bool :=
  let* fired := exit_fired in
  if fired then ret true
  else close_exit >> ret false.

Definition zkConnValid : M bool :=
  let* fired := exit_fired in
  if fired then ret false
  else
    let* w := get in
    ret (match conn (z w) with None => false | Some _ => true end).

(** [z.Lock(); if z.conn != nil { z.conn.Close(); z.conn = nil }; z.Unlock()],
    in [Close] and in the [StateDisconnected] case of [handleZkEvent]. *)
Definition release_conn : M unit :=
  let* w := get in
  match conn (z w) with
  | Some _ => call_Close >> modify (with_z (set_conn None))
  | None => ret tt
  end.

(** [z.wait.Wait()]. *)
Definition wait_Wait : M unit :=
  let* w := get in
  if (wait (z w) =? 0)%nat then ret tt else block.

(** [z.wait.Done()]. *)
Definition wait_Done : M unit :=
  modify (with_z (fun c => set_wait (wait c - 1) c)).

Definition Close : M unit :=
  stop >> wait_Wait >> release_conn.

(** *** Calls on the session

    Each call is made with the mutex held and [z.conn] non-nil; it is
    recorded in the trace and may change the store. *)

Definition call_Create (path : string) (data : list byte) (flags : Z)
    (acl : ACL) : M (string * option error) :=
  let* w := get in
  let r := conn_Create path data flags acl (store w) in
  modify (fun w => emit (CallCreate path data flags acl) (set_store r.2 w)) >>
  ret (r.1.1, lift_zk r.1.2).

Definition call_Delete (path : string) (version : Z) : M (option error) :=
  let* w := get in
  let r := conn_Delete path version (store w) in
  modify (fun w => emit (CallDelete path version) (set_store r.2 w)) >>
  ret (lift_zk r.1).

Definition call_Children (path : string)
  : M (list string * option Stat * option error) :=
  let* w := get in
  let r := conn_Children path (store w) in
  modify (fun w => emit (CallChildren path) (set_store r.2 w)) >>
  ret (r.1.1.1, r.1.1.2, lift_zk r.1.2).

Definition call_ChildrenW (path : string)
  : M (list string * option Stat * option watch * option error) :=
  let* w := get in
  let r := conn_ChildrenW path (store w) in
  modify (fun w => emit (CallChildrenW path) (set_store r.2 w)) >>
  ret (r.1.1.1.1, r.1.1.1.2, r.1.1.2, lift_zk r.1.2).

Definition call_ExistsW (path : string)
  : M (bool * option Stat * option watch * option error) :=
  let* w := get in
  let r := conn_ExistsW path (store w) in
  modify (fun w => emit (CallExistsW path) (set_store r.2 w)) >>
  ret (r.1.1.1.1, r.1.1.1.2, r.1.1.2, lift_zk r.1.2).

(** *** Node operations *)

(** The loop of [Create] over [strings.Split(basePath, "/")[1:]]. *)
Fixpoint Create_range (basePath tmpPath : string) (strs : list string)
  : M (option error) :=
  match strs with
  | [] => ret None
  | str :: strs' =>
      let tmpPath := Go.path_Join [tmpPath; "/"; str] in
      let* w := get in
      let* err :=
        match conn (z w) with
        | Some _ =>
            let* r := call_Create tmpPath [] 0 (WorldACL PermAll) in ret r.2
        | None => ret (Some ZK_CLIENT_CONN_NIL_ERR)
        end in
      match err with
      | Some e =>
          if decide (e = ZkError ErrNodeExists)
          then Create_range basePath tmpPath strs'
          else ret (jerrors_Annotatef err ("zk.Create(path:" +:+ basePath +:+ ")"))
      | None => Create_range basePath tmpPath strs'
      end
  end.

Definition Create (basePath : string) : M (option error) :=
  Create_range basePath "" (tail (Go.Split basePath "/"%char)).

Definition Delete (basePath : string) : M (option error) :=
  let* w := get in
  let* err :=
    match conn (z w) with
    | Some _ => call_Delete basePath (-1)
    | None => ret (Some ZK_CLIENT_CONN_NIL_ERR)
    end in
  ret (jerrors_Annotatef err ("Delete(basePath:" +:+ basePath +:+ ")")).

Definition RegisterTemp (basePath node : string) : M (string * option error) :=
  let zkPath := Go.path_Join [basePath] +:+ "/" +:+ node in
  let* w := get in
  let* r :=
    match conn (z w) with
    | Some _ => call_Create zkPath [] FlagEphemeral (WorldACL PermAll)
    | None => ret ("", Some ZK_CLIENT_CONN_NIL_ERR)
    end in
  match r.2 with
  | Some _ =>
      ret ("", jerrors_Annotatef r.2
                 ("zk.Create(path:" +:+ basePath +:+ ", zk.FlagEphemeral)"))
  | None => ret (r.1, None)
  end.

Definition RegisterTempSeq (basePath : string) (data : list byte)
  : M (string * option error) :=
  let* w := get in
  let* r :=
    match conn (z w) with
    | Some _ =>
        call_Create (Go.path_Join [basePath] +:+ "/") data
          (Z.lor FlagEphemeral FlagSequence) (WorldACL PermAll)
    | None => ret ("", Some ZK_CLIENT_CONN_NIL_ERR)
    end in
  match r.2 with
  | Some _ =>
      ret ("", jerrors_Annotatef r.2
                 ("zk.Create(path:" +:+ basePath
                  +:+ ", zk.FlagEphemeral|zk.FlagSequence)"))
  | None => ret (r.1, None)
  end.

Definition none_children (path : string) : error :=
  Errorf ("path{" +:+ path +:+ "} has none children").

Definition getChildrenW (path : string)
  : M (list string * option watch * option error) :=
  let* w := get in
  let* r :=
    match conn (z w) with
    | Some _ => call_ChildrenW path
    | None => ret ([], None, None, Some ZK_CLIENT_CONN_NIL_ERR)
    end in
  let '(children, stat, watch, err) := r in
  match err with
  | Some e =>
      if decide (e = ZkError ErrNoNode)
      then ret ([], None, Some (none_children path))
      else ret ([], None,
                jerrors_Annotatef err ("zk.ChildrenW(path:" +:+ path +:+ ")"))
  | None =>
      match stat with
      | None => ret ([], None, Some (none_children path))
      | Some _ =>
          if (length children =? 0)%nat
          then ret ([], None, Some (none_children path))
          else ret (children, watch, None)
      end
  end.

Definition getChildren (path : string) : M (list string * option error) :=
  let* w := get in
  let* r :=
    match conn (z w) with
    | Some _ => call_Children path
    | None => ret ([], None, Some ZK_CLIENT_CONN_NIL_ERR)
    end in
  let '(children, stat, err) := r in
  match err with
  | Some e =>
      if decide (e = ZkError ErrNoNode)
      then ret ([], Some (none_children path))
      else ret ([], jerrors_Annotatef err ("zk.Children(path:" +:+ path +:+ ")"))
  | None =>
      match stat with
      | None => ret ([], Some (none_children path))
      | Some _ =>
          if (length children =? 0)%nat
          then ret ([], Some (none_children path))
          else ret (children, None)
      end
  end.

Definition existW (zkPath : string) : M (option watch * option error) :=
  let* w := get in
  let* r :=
    match conn (z w) with
    | Some _ => call_ExistsW zkPath
    | None => ret (false, None, None, Some ZK_CLIENT_CONN_NIL_ERR)
    end in
  let '(exist_, _, watch, err) := r in
  match err with
  | Some _ =>
      ret (None, jerrors_Annotatef err ("zk.ExistsW(path:" +:+ zkPath +:+ ")"))
  | None =>
      if negb exist_
      then ret (None, Some (Errorf ("zkClient{" +:+ name (z w) +:+ "} App zk path{"
                                    +:+ zkPath +:+ "} does not exist.")))
      else ret (watch, None)
  end.

(** *** The event handler of the background goroutine *)

(** [for _, e := range a { *e <- struct{}{} }], every receiver being
    ready to receive. *)
Fixpoint send_all (a : list handle) : M unit :=
  match a with
  | [] => ret tt
  | e :: a' => modify (emit (Notify e)) >> send_all a'
  end.

(** [for p, a := range z.eventRegistry { if strings.HasPrefix(p, path) {...} }];
    Go leaves the iteration order of a map unspecified: [ord] is the
    order in which this run of the loop meets the keys. *)
Fixpoint notify_range (ord : list string) (path : string) : M unit :=
  match ord with
  | [] => ret tt
  | p :: ord' =>
      let* w := get in
      (if Go.HasPrefix p path
       then send_all (default [] (eventRegistry (z w) !! p))
       else ret tt) >>
      notify_range ord' path
  end.

Inductive control := next_iteration | break_LOOP.

(** The body of [case event = <-session] in [handleZkEvent]: the switch
    on [(int)(event.State)] and the assignment to [state] after it.
    The result is how the loop goes on and the new value of [state]. *)
Definition handle_event (ord : list string) (state : Z) (event : Event)
  : M (control * Z) :=
  if (State event =? StateDisconnected)%Z then
    stop >> release_conn >> ret (break_LOOP, state)
  else if (State event =? EventNodeDataChanged)%Z
          || (State event =? EventNodeChildrenChanged)%Z then
    (* z.Lock() *)
    notify_range ord (Path event) >>
    (* z.Unlock() *)
    ret (next_iteration, State event)
  else if (State event =? StateConnecting)%Z
          || (State event =? StateConnected)%Z
          || (State event =? StateHasSession)%Z then
    if negb (state =? StateConnecting)%Z || negb (state =? StateDisconnected)%Z
    then ret (next_iteration, state)          (* continue *)
    else
      let* w := get in
      match eventRegistry (z w) !! Path event with
      | Some a => if (0 <? length a)%nat then send_all a else ret tt
      | None => ret tt
      end >>
      ret (next_iteration, State event)
  else ret (next_iteration, State event).

(** [newZookeeperClient] after a successful [zk.Connect]: the client
    with the session, an open [exit] channel, [z.wait.Add(1)] done and
    [handleZkEvent] started with [state == 0]. *)
Definition newZookeeperClient (name : string) (zkAddrs : list string)
    (timeout : Z) : zookeeperClient :=
  {| name := name; zkAddrs := zkAddrs; conn := Some session;
     timeout := timeout; exit := false; wait := 1; eventRegistry := ∅ |}.

Definition new_world (name : string) (zkAddrs : list string) (timeout : Z)
    (st : Store) : world :=
  {| z := newZookeeperClient name zkAddrs timeout; store := st;
     session_closed := false; trace := [] |}.

(** *** The goroutines that share the client

    The background goroutine runs [handleZkEvent]; any number of callers
    run [Close].  A step is one atomic action of one goroutine: a
    [select], a [close], a section under [z.Lock()], a [Wait] that
    returns, a [Done]. *)

Inductive bg_pc :=
| bg_select (state : Z)     (* at the select of LOOP *)
| bg_stop                   (* StateDisconnected: before the select of z.stop() *)
| bg_stop_close             (* in z.stop(), before close(z.exit) *)
| bg_release                (* after z.stop(), before z.Lock() *)
| bg_break                  (* out of LOOP, before the deferred z.wait.Done() *)
| bg_exited.

Inductive close_pc :=
| close_called              (* before the select of z.stop() *)
| close_stop_close          (* in z.stop(), before close(z.exit) *)
| close_wait                (* before z.wait.Wait() *)
| close_release             (* before z.Lock() *)
| close_returned.

(** What the select of LOOP receives. *)
Inductive bg_choice :=
| take_exit
| take_event (ord : list string) (event : Event).

Definition bg_step (pc : bg_pc) (c : bg_choice) : M bg_pc :=
  match pc with
  | bg_select state =>
      match c with
      | take_exit =>
          let* fired := exit_fired in
          if fired then ret bg_break else block
      | take_event ord event =>
          if (State event =? StateDisconnected)%Z then ret bg_stop
          else let* r := handle_event ord state event in ret (bg_select r.2)
      end
  | bg_stop =>
      let* fired := exit_fired in
      ret (if fired then bg_release else bg_stop_close)
  | bg_stop_close => close_exit >> ret bg_release
  | bg_release => release_conn >> ret bg_break
  | bg_break => wait_Done >> ret bg_exited
  | bg_exited => block
  end.

Definition close_step (pc : close_pc) : M close_pc :=
  match pc with
  | close_called =>
      let* fired := exit_fired in
      ret (if fired then close_wait else close_stop_close)
  | close_stop_close => close_exit >> ret close_wait
  | close_wait => wait_Wait >> ret close_release
  | close_release => release_conn >> ret close_returned
  | close_returned => block
  end.

Record system := {
  shared : world;
  bg : bg_pc;
  closers : list close_pc;
  crashed : option panic;
}.

Inductive thread :=
| background (c : bg_choice)
| closer (i : nat).

(** One step of goroutine [t]; [None] when it cannot move. A panic
    stops the whole program. *)
Definition thread_step (t : thread) (s : system) : option system :=
  match crashed s with
  | Some _ => None
  | None =>
      match t with
      | background c =>
          match bg_step (bg s) c (shared s) with
          | Ret pc w =>
              Some {| shared := w; bg := pc; closers := closers s; crashed := None |}
          | Panics p =>
              Some {| shared := shared s; bg := bg s; closers := closers s;
                      crashed := Some p |}
          | Blocks => None
          end
      | closer i =>
          match closers s !! i with
          | None => None
          | Some pc =>
              match close_step pc (shared s) with
              | Ret pc' w =>
                  Some {| shared := w; bg := bg s;
                          closers := <[i := pc']> (closers s); crashed := None |}
              | Panics p =>
                  Some {| shared := shared s; bg := bg s; closers := closers s;
                          crashed := Some p |}
              | Blocks => None
              end
          end
      end
  end.

Definition keys (r : gmap string (list handle)) : list string :=
  (map_to_list r).*1.

(** The order of a map range is some order of the map's keys. *)
Definition range_order_ok (t : thread) (s : system) : Prop :=
  match t with
  | background (take_event ord _) =>
      ord ≡ₚ keys (eventRegistry (z (shared s)))
  | _ => True
  end.

Definition step (s s' : system) : Prop :=
  ∃ t, range_order_ok t s ∧ thread_step t s = Some s'.

(** The system once [newZookeeperClient] has returned, with [n] calls
    of [Close] to come. *)
Definition initial (name : string) (zkAddrs : list string) (timeout : Z)
    (st : Store) (n : nat) : system :=
  {| shared := new_world name zkAddrs timeout st; bg := bg_select 0;
     closers := replicate n close_called; crashed := None |}.

Definition reachable (s : system) : Prop :=
  ∃ name zkAddrs timeout st n, rtc step (initial name zkAddrs timeout st n) s.

(** *** Sequences of calls *)

(** [n] calls of [m], one after the other, with their results. *)
Fixpoint calls {A} (m : M A) (n : nat) : M (list A) :=
  match n with
  | 0 => ret []
  | S n' => let* a := m in let* r := calls m n' in ret (a :: r)
  end.

(** Does byte [c] occur in [s]? *)
Fixpoint occurs (c : ascii) (s : string) : bool :=
  match s with
  | EmptyString => false
  | String d s' => Ascii.eqb d c || occurs c s'
  end.

(** ** Properties *)

Ltac run := unfold bind, ret, get, modify, throw, block in *; simpl in *.
Ltac run_with E := run; repeat (rewrite E; simpl); try done.

Lemma Split_nonempty s sep : Go.Split s sep ≠ [].
Proof.
  destruct s as [|c s]; simpl; [done|].
  destruct (Ascii.eqb c sep); [done|].
  by destruct (Go.Split s sep).
Qed.

Lemma Split_tail_nil s sep :
  tail (Go.Split s sep) = [] ↔ occurs sep s = false.
Proof.
  induction s as [|c s IH]; simpl; [done|].
  destruct (Ascii.eqb c sep) eqn:E; simpl.
  - split; [|done]. intros Hnil. by destruct (Split_nonempty s sep).
  - destruct (Go.Split s sep) as [|x r] eqn:Hs; simpl in *; [|done].
    by destruct (Split_nonempty s sep).
Qed.

Lemma stop_fired w : exit (z w) = true → stop w = Ret true w.
Proof. intros E. unfold stop, exit_fired. run_with E. Qed.

Lemma stop_first w :
  exit (z w) = false →
  stop w = Ret false (emit ExitClose (with_z (set_exit true) w)).
Proof. intros E. unfold stop, exit_fired, close_exit. run_with E. Qed.

Lemma calls_stop_fired n w :
  exit (z w) = true → calls stop n w = Ret (replicate n true) w.
Proof.
  intros E. induction n as [|n IH]; simpl; [done|].
  unfold bind at 1. rewrite (stop_fired w E).
  unfold bind at 1. by rewrite IH.
Qed.

(** C4. [stop] is idempotent. On a client whose [exit] channel is still
    open, [n+1] calls of [stop] in a row all return: the first returns
    false and closes [exit], the [n] others return true, and the whole
    run performs exactly one [close(z.exit)] and nothing else, so none
    of the calls panics on a closed channel. *)
Theorem stop_idempotent (w : world) (n : nat) :
  exit (z w) = false →
  ∃ w', calls stop (S n) w = Ret (false :: replicate n true) w'
        ∧ exit (z w') = true
        ∧ trace w' = trace w ++ [ExitClose].
Proof.
  intros E. eexists. split; [|split].
  - simpl. unfold bind at 1. rewrite (stop_first w E).
    unfold bind at 1. rewrite calls_stop_fired; [reflexivity|done].
  - done.
  - done.
Qed.

(** C10. [Create("")] returns nil whatever the client's state: the
    world is unchanged, so no call reaches the store, and the connection
    may be nil. *)
Theorem Create_empty_path (w : world) : Create "" w = Ret None w.
Proof. reflexivity. Qed.

Lemma Create_range_no_conn basePath tmpPath str strs w :
  conn (z w) = None →
  Create_range basePath tmpPath (str :: strs) w
  = Ret (Some (Annotated ZK_CLIENT_CONN_NIL_ERR
                 ("zk.Create(path:" +:+ basePath +:+ ")"))) w.
Proof. intros E. simpl. run_with E. Qed.

(** C6, as amended. With a nil connection every node operation returns
    at once, leaving the world as it is (no call on the session): the
    result is [ZK_CLIENT_CONN_NIL_ERR] annotated with the operation and
    the path, for [Create] provided the path contains a slash; [Create]
    of a path without slash returns nil. *)
Theorem node_operations_without_conn (w : world) (path node : string)
    (data : list byte) :
  conn (z w) = None →
  (occurs "/" path = true →
   Create path w
   = Ret (Some (Annotated ZK_CLIENT_CONN_NIL_ERR
                  ("zk.Create(path:" +:+ path +:+ ")"))) w)
  ∧ (occurs "/" path = false → Create path w = Ret None w)
  ∧ Delete path w
    = Ret (Some (Annotated ZK_CLIENT_CONN_NIL_ERR
                   ("Delete(basePath:" +:+ path +:+ ")"))) w
  ∧ RegisterTemp path node w
    = Ret ("", Some (Annotated ZK_CLIENT_CONN_NIL_ERR
                       ("zk.Create(path:" +:+ path +:+ ", zk.FlagEphemeral)"))) w
  ∧ RegisterTempSeq path data w
    = Ret ("", Some (Annotated ZK_CLIENT_CONN_NIL_ERR
                       ("zk.Create(path:" +:+ path
                        +:+ ", zk.FlagEphemeral|zk.FlagSequence)"))) w
  ∧ getChildren path w
    = Ret ([], Some (Annotated ZK_CLIENT_CONN_NIL_ERR
                       ("zk.Children(path:" +:+ path +:+ ")"))) w
  ∧ getChildrenW path w
    = Ret ([], None, Some (Annotated ZK_CLIENT_CONN_NIL_ERR
                             ("zk.ChildrenW(path:" +:+ path +:+ ")"))) w
  ∧ existW path w
    = Ret (None, Some (Annotated ZK_CLIENT_CONN_NIL_ERR
                         ("zk.ExistsW(path:" +:+ path +:+ ")"))) w.
Proof.
  intros E. repeat split.
  - intros Hs. unfold Create.
    destruct (tail (Go.Split path "/")) as [|str strs] eqn:Ht.
    + apply Split_tail_nil in Ht. congruence.
    + by apply Create_range_no_conn.
  - intros Hs. unfold Create.
    by rewrite (proj2 (Split_tail_nil path "/") Hs).
  - unfold Delete. run_with E.
  - unfold RegisterTemp. run_with E.
  - unfold RegisterTempSeq. run_with E.
  - unfold getChildren. run_with E.
  - unfold getChildrenW. run_with E.
  - unfold existW. run_with E.
Qed.

(** *** Listing children *)

(** C7. With a live connection, [getChildren] and [getChildrenW] return
    one and the same error, [path{...} has none children], when the
    store reports [ErrNoNode], when it returns no error but a nil stat,
    and when it returns no error and no child; and whenever either
    operation returns without error, its list of children is not
    empty. *)
Theorem no_children_ambiguity (w : world) (path : string) :
  conn (z w) = Some session →
  (∀ children stat err st',
      conn_Children path (store w) = (children, stat, err, st') →
      err = Some ErrNoNode ∨ (err = None ∧ stat = None)
      ∨ (err = None ∧ children = []) →
      ∃ w', getChildren path w = Ret ([], Some (none_children path)) w')
  ∧ (∀ children stat wt err st',
      conn_ChildrenW path (store w) = (children, stat, wt, err, st') →
      err = Some ErrNoNode ∨ (err = None ∧ stat = None)
      ∨ (err = None ∧ children = []) →
      ∃ w', getChildrenW path w = Ret ([], None, Some (none_children path)) w')
  ∧ (∀ children w', getChildren path w = Ret (children, None) w' →
                    children ≠ [])
  ∧ (∀ children wt w', getChildrenW path w = Ret (children, wt, None) w' →
                       children ≠ []).
Proof.
  intros E. repeat split.
  - intros children stat err st' Hc Hcase.
    unfold getChildren, call_Children. run_with E. rewrite Hc. simpl.
    destruct Hcase as [->|[[-> ->]|[-> ->]]]; simpl;
      [eauto|eauto|destruct stat; eauto].
  - intros children stat wt err st' Hc Hcase.
    unfold getChildrenW, call_ChildrenW. run_with E. rewrite Hc. simpl.
    destruct Hcase as [->|[[-> ->]|[-> ->]]]; simpl;
      [eauto|eauto|destruct stat; eauto].
  - intros children w'. unfold getChildren, call_Children. run_with E.
    destruct (conn_Children path (store w)) as [[[c st] [e|]] s']; simpl.
    + destruct (decide _); simpl; intros; simplify_eq.
    + destruct st; [|intros; simplify_eq].
      destruct c; simpl; intros; simplify_eq. done.
  - intros children wt w'. unfold getChildrenW, call_ChildrenW. run_with E.
    destruct (conn_ChildrenW path (store w)) as [[[[c st] wt'] [e|]] s']; simpl.
    + destruct (decide _); simpl; intros; simplify_eq.
    + destruct st; [|intros; simplify_eq].
      destruct c; simpl; intros; simplify_eq. done.
Qed.

(** *** Dispatch of events *)

Definition is_prefix_of (s t : string) : Prop := ∃ r, t = s +:+ r.

Lemma HasPrefix_spec s prefix :
  Go.HasPrefix s prefix = true ↔ is_prefix_of prefix s.
Proof.
  unfold Go.HasPrefix, is_prefix_of.
  revert s. induction prefix as [|c p IH]; intros s.
  - split; [intros _; by exists s|intros _].
    destruct s; simpl; done.
  - destruct s as [|d s]; simpl.
    + split; [done|]. intros [r Hr]. done.
    + specialize (IH s). simpl in IH.
      destruct (Ascii.eqb_spec d c) as [->|Hne]; simpl.
      * rewrite IH. split; intros [r Hr]; exists r.
        -- by rewrite Hr.
        -- change (String c s = String c (p +:+ r)) in Hr. congruence.
      * rewrite andb_false_r. split; [done|].
        intros [r Hr]. change (String d s = String c (p +:+ r)) in Hr.
        congruence.
Qed.

(** The world after the handles of [a] have been notified in order. *)
Definition sent_to (a : list handle) (w : world) : world :=
  {| z := z w; store := store w; session_closed := session_closed w;
     trace := trace w ++ (Notify <$> a) |}.

Lemma sent_to_nil w : sent_to [] w = w.
Proof. destruct w. unfold sent_to. simpl. by rewrite app_nil_r. Qed.

Lemma send_all_spec a w : send_all a w = Ret tt (sent_to a w).
Proof.
  revert w. induction a as [|e a IH]; intros w; simpl.
  - by rewrite sent_to_nil.
  - run. rewrite IH. unfold sent_to, emit. simpl.
    by rewrite <- app_assoc.
Qed.

(** The handles notified by the range over the registry for an event
    at [path], in the order of the notifications. *)
Definition notified (r : gmap string (list handle)) (ord : list string)
    (path : string) : list handle :=
  ord ≫= (fun p => if Go.HasPrefix p path then default [] (r !! p) else []).

Lemma notify_range_spec ord path w :
  notify_range ord path w
  = Ret tt (sent_to (notified (eventRegistry (z w)) ord path) w).
Proof.
  revert w. induction ord as [|p ord IH]; intros w; simpl.
  - by rewrite sent_to_nil.
  - run. destruct (Go.HasPrefix p path).
    + rewrite send_all_spec. rewrite IH. simpl.
      unfold sent_to. simpl. by rewrite fmap_app, app_assoc.
    + by rewrite IH.
Qed.

Lemma switch_cases_ne :
  StateDisconnected ≠ EventNodeDataChanged
  ∧ StateDisconnected ≠ EventNodeChildrenChanged
  ∧ StateDisconnected ≠ StateConnecting
  ∧ StateDisconnected ≠ StateConnected
  ∧ StateDisconnected ≠ StateHasSession
  ∧ EventNodeDataChanged ≠ StateConnecting
  ∧ EventNodeDataChanged ≠ StateConnected
  ∧ EventNodeDataChanged ≠ StateHasSession
  ∧ EventNodeChildrenChanged ≠ StateConnecting
  ∧ EventNodeChildrenChanged ≠ StateConnected
  ∧ EventNodeChildrenChanged ≠ StateHasSession.
Proof.
  pose proof switch_cases_distinct as Hd.
  repeat (apply NoDup_cons in Hd; destruct Hd as [? Hd]).
  set_solver.
Qed.

Ltac by_cases_ne :=
  pose proof switch_cases_ne as (?&?&?&?&?&?&?&?&?&?&?); intuition congruence.

(** The condition [state != Connecting || state != Disconnected] holds
    for every [state]. *)
Lemma reconnect_guard_always (state : Z) :
  negb (state =? StateConnecting)%Z || negb (state =? StateDisconnected)%Z
  = true.
Proof.
  destruct (Z.eqb_spec state StateConnecting) as [->|]; [|done].
  destruct (Z.eqb_spec StateConnecting StateDisconnected); [|done].
  by_cases_ne.
Qed.

(** For an event whose state is Connecting, Connected or HasSession the
    handler always takes the [continue]: nothing is sent and [state]
    keeps its value. *)
Lemma reconnect_event_skipped ord state event w :
  State event = StateConnecting ∨ State event = StateConnected
  ∨ State event = StateHasSession →
  handle_event ord state event w = Ret (next_iteration, state) w.
Proof.
  intros Hs.
  unfold handle_event.
  rewrite (proj2 (Z.eqb_neq (State event) StateDisconnected)) by by_cases_ne.
  rewrite (proj2 (Z.eqb_neq (State event) EventNodeDataChanged)) by by_cases_ne.
  rewrite (proj2 (Z.eqb_neq (State event) EventNodeChildrenChanged))
    by by_cases_ne.
  simpl.
  assert ((State event =? StateConnecting)%Z || (State event =? StateConnected)%Z
          || (State event =? StateHasSession)%Z = true) as ->.
  { destruct Hs as [-> | [-> | ->]]; rewrite Z.eqb_refl; by rewrite ?orb_true_r. }
  by rewrite reconnect_guard_always.
Qed.

(** C2, as amended. On a Connecting, Connected or HasSession event, when
    the recorded state differs from Connecting and from Disconnected, the
    guard of the case holds and the handler goes on to the next
    iteration at once: the world is as before, so nobody is notified,
    whatever is registered at the event's path, and the recorded state
    stays as it was. *)
Theorem reconnect_skipped_when_state_differs (w : world) (ord : list string)
    (state : Z) (event : Event) :
  State event = StateConnecting ∨ State event = StateConnected
  ∨ State event = StateHasSession →
  state ≠ StateConnecting → state ≠ StateDisconnected →
  ∃ w', handle_event ord state event w = Ret (next_iteration, state) w'
        ∧ trace w' = trace w
        ∧ w' = w.
Proof.
  intros Hs _ _. exists w. split; [by apply reconnect_event_skipped|done].
Qed.

Lemma node_changed_event ord state event w :
  State event = EventNodeDataChanged
  ∨ State event = EventNodeChildrenChanged →
  handle_event ord state event w
  = Ret (next_iteration, State event)
        (sent_to (notified (eventRegistry (z w)) ord (Path event)) w).
Proof.
  intros Hs.
  unfold handle_event.
  rewrite (proj2 (Z.eqb_neq (State event) StateDisconnected)) by by_cases_ne.
  assert ((State event =? EventNodeDataChanged)%Z
          || (State event =? EventNodeChildrenChanged)%Z = true) as ->.
  { destruct Hs as [->| ->]; rewrite Z.eqb_refl; by rewrite ?orb_true_r. }
  run. by rewrite notify_range_spec.
Qed.

(** [registerEvent] puts the handle at the end of the path's entry, so
    the order of an entry is the order of the registrations. *)
Lemma registerEvent_appends w p h :
  p ≠ "" → h ≠ nil_handle →
  ∃ w1, registerEvent p h w = Ret tt w1
        ∧ eventRegistry (z w1) !! p
          = Some (default [] (eventRegistry (z w) !! p) ++ [h]).
Proof.
  intros Hp Hh. unfold registerEvent.
  rewrite !bool_decide_eq_false_2 by done. simpl. run.
  eexists. split; [done|]. simpl. by rewrite lookup_insert_eq.
Qed.

(** C1, as amended. On a node-data-changed or node-children-changed
    event, whatever the order in which the range meets the registered
    paths, the handler goes on with the loop, leaves the client as it
    is, and sends this and nothing else: for every registered path [p]
    that begins with the event's path (met in the order of the range),
    one notification to every handle registered under [p], the handles
    of [p] one after the other in their order in the entry, which is the
    order of their registration since [registerEvent] appends; the
    handles of the other paths get nothing. *)
Theorem dispatch_to_paths_below_event (w : world) (ord : list string)
    (state : Z) (event : Event) :
  State event = EventNodeDataChanged
  ∨ State event = EventNodeChildrenChanged →
  ord ≡ₚ keys (eventRegistry (z w)) →
  ∃ w' sent,
    handle_event ord state event w = Ret (next_iteration, State event) w'
    ∧ z w' = z w
    ∧ trace w' = trace w ++ (Notify <$> sent)
    ∧ (∀ p a, eventRegistry (z w) !! p = Some a →
              is_prefix_of (Path event) p →
              ∃ l1 l2, sent = l1 ++ a ++ l2)
    ∧ (∀ h, h ∈ sent →
            ∃ p a, eventRegistry (z w) !! p = Some a
                   ∧ is_prefix_of (Path event) p ∧ h ∈ a)
    ∧ sent = notified (eventRegistry (z w)) ord (Path event)
    ∧ (∀ p h, p ≠ "" → h ≠ nil_handle →
              ∃ w1, registerEvent p h w = Ret tt w1
                    ∧ eventRegistry (z w1) !! p
                      = Some (default [] (eventRegistry (z w) !! p) ++ [h])).
Proof.
  intros Hs Hord.
  exists (sent_to (notified (eventRegistry (z w)) ord (Path event)) w),
         (notified (eventRegistry (z w)) ord (Path event)).
  split; [by apply node_changed_event|].
  split; [done|]. split; [done|].
  split; [|split; [|split; [done|apply registerEvent_appends]]].
  - intros p a Hp Hpre.
    assert (p ∈ ord) as Hin.
    { rewrite Hord. unfold keys. apply list_elem_of_fmap.
      exists (p, a). split; [done|]. by apply elem_of_map_to_list. }
    apply list_elem_of_split in Hin as (o1 & o2 & ->).
    unfold notified. rewrite bind_app, bind_cons.
    apply HasPrefix_spec in Hpre. rewrite Hpre, Hp. simpl. eauto.
  - intros h Hh. unfold notified in Hh.
    apply list_elem_of_bind in Hh as (p & Hh & _).
    destruct (Go.HasPrefix p (Path event)) eqn:Hpre; [|by apply elem_of_nil in Hh].
    destruct (eventRegistry (z w) !! p) as [a|] eqn:Hp;
      [|by apply elem_of_nil in Hh].
    exists p, a. split; [done|]. split; [|done]. by apply HasPrefix_spec.
Qed.

(** *** Unregistering a handle *)

(** [a] without the first element equal to [h]. *)
Fixpoint remove_first (h : handle) (a : list handle) : list handle :=
  match a with
  | [] => []
  | e :: a' => if decide (e = h) then a' else e :: remove_first h a'
  end.

(** How many times [h] is in [a]. *)
Definition times (h : handle) (a : list handle) : nat :=
  length (filter (fun e => e = h) a).

Lemma remove_first_absent h a : h ∉ a → remove_first h a = a.
Proof.
  induction a as [|e a IH]; simpl; [done|].
  intros Hn. apply not_elem_of_cons in Hn as [Hne Hn].
  rewrite decide_False by done. by rewrite IH.
Qed.

Lemma remove_first_middle h l1 l2 :
  h ∉ l1 → remove_first h (l1 ++ h :: l2) = l1 ++ l2.
Proof.
  induction l1 as [|e l1 IH]; simpl; intros Hn.
  - by rewrite decide_True.
  - apply not_elem_of_cons in Hn as [Hne Hn].
    rewrite decide_False by done. by rewrite IH.
Qed.

Lemma times_once_split h a :
  times h a ≤ 1 → h ∈ a →
  ∃ l1 l2, a = l1 ++ h :: l2 ∧ (h ∉ l1) ∧ (h ∉ l2).
Proof.
  intros Ht Hin.
  apply list_elem_of_split_l in Hin as (l1 & l2 & -> & Hl1).
  exists l1, l2. split; [done|]. split; [done|].
  unfold times in Ht. rewrite filter_app, filter_cons_True in Ht by done.
  rewrite length_app in Ht. simpl in Ht.
  intros Hin2.
  assert (h ∈ filter (λ e, e = h) l2) as Hf by (by apply list_elem_of_filter).
  destruct (filter (λ e, e = h) l2); [by apply elem_of_nil in Hf|].
  simpl in Ht. lia.
Qed.

Lemma unregister_range_absent h idx a w :
  h ∉ arr a → unregister_range h idx a w = Ret a w.
Proof.
  intros Hn. induction idx as [|i idx IH]; simpl; [done|].
  destruct (arr a !! i) as [e|] eqn:He; [|done].
  rewrite decide_False; [done|].
  intros ->. apply Hn. by eapply list_elem_of_lookup_2.
Qed.

Lemma unregister_range_app h idx1 idx2 a w :
  unregister_range h (idx1 ++ idx2) a w
  = bind (unregister_range h idx1 a) (unregister_range h idx2) w.
Proof.
  revert a. induction idx1 as [|i idx1 IH]; intros a; simpl; [done|].
  destruct (arr a !! i) as [e|]; [|by rewrite IH].
  destruct (decide (e = h)); [|by rewrite IH].
  unfold remove_at. destruct (decide (i + 1 ≤ len a)); run; [|done].
  by rewrite IH.
Qed.

(** On a slice that holds [h] once, the loop removes it and leaves the
    other handles in their order. *)
Lemma unregister_range_once h l1 l2 w :
  h ∉ l1 → h ∉ l2 →
  ∃ a', unregister_range h (seq 0 (length (l1 ++ h :: l2)))
          {| arr := l1 ++ h :: l2; len := length (l1 ++ h :: l2) |} w
        = Ret a' w
        ∧ take (len a') (arr a') = l1 ++ l2.
Proof.
  intros H1 H2.
  rewrite length_app. simpl length.
  replace (length l1 + S (length l2)) with (length l1 + (1 + length l2)) by lia.
  rewrite seq_app, unregister_range_app. simpl seq.
  unfold bind at 1.
  assert (∀ idx a, (∀ i, i ∈ idx → i < length l1) → arr a = l1 ++ h :: l2 →
                   unregister_range h idx a w = Ret a w) as Hpre.
  { intros idx a Hidx Ha. induction idx as [|i idx IH]; simpl; [done|].
    assert (i < length l1) as Hi by (apply Hidx; left).
    rewrite Ha, lookup_app_l by done.
    destruct (l1 !! i) as [e|] eqn:He.
    - rewrite decide_False.
      + apply IH. intros j Hj. apply Hidx. by right.
      + intros ->. apply H1. by eapply list_elem_of_lookup_2.
    - apply lookup_ge_None in He. lia. }
  rewrite Hpre; [|intros i Hi; apply elem_of_seq in Hi; lia|done].
  simpl unregister_range. simpl arr.
  rewrite list_lookup_middle by done.
  rewrite decide_True by done.
  unfold remove_at. simpl len. simpl arr.
  rewrite decide_True by lia. run.
  replace (length l1 + 1) with (S (length l1)) by lia.
  rewrite take_app_length.
  assert (drop (S (length l1)) (l1 ++ h :: l2) = l2) as ->.
  { rewrite (cons_middle h), app_assoc. apply drop_app_length'.
    rewrite length_app. simpl. lia. }
  assert (drop (length l1 + S (length l2) - 1) (l1 ++ h :: l2)
          = drop (length l2) (h :: l2)) as ->.
  { rewrite drop_app_ge by lia. f_equal. lia. }
  rewrite take_ge by lia.
  replace (length l1 + S (length l2) - 1) with (length l1 + length l2) by lia.
  destruct l2 as [|x l2].
  - simpl. eexists. split; [done|]. simpl.
    rewrite Nat.add_0_r. by rewrite take_app_length, app_nil_r.
  - rewrite unregister_range_absent.
    + eexists. split; [done|]. simpl len. simpl arr.
      replace (l1 ++ x :: l2 ++ drop (length l2) (x :: l2))
        with ((l1 ++ x :: l2) ++ drop (length l2) (x :: l2))
        by (by rewrite <- app_assoc).
      by rewrite take_app_length' by (rewrite length_app; simpl; lia).
    + simpl arr. simpl drop.
      intros Hin. apply elem_of_app in Hin as [Hin|Hin]; [done|].
      apply elem_of_cons in Hin as [->|Hin]; [apply H2; left|].
      apply elem_of_app in Hin as [Hin|Hin]; [apply H2; by right|].
      apply H2. by apply (subseteq_drop (length l2) (x :: l2)).
Qed.

(** What [unregisterEvent] writes back for a path whose entry holds
    [h] at most once. *)
Lemma unregisterEvent_at_most_once p h a w :
  p ≠ "" → eventRegistry (z w) !! p = Some a → times h a ≤ 1 →
  unregisterEvent p h w
  = Ret tt (with_z (set_eventRegistry
              (if decide (remove_first h a = [])
               then delete p (eventRegistry (z w))
               else <[p := remove_first h a]> (eventRegistry (z w)))) w).
Proof.
  intros Hp Ha Ht. unfold unregisterEvent.
  rewrite bool_decide_eq_false_2 by done.
  unfold bind at 1. unfold get at 1. rewrite Ha.
  destruct (decide (h ∈ a)) as [Hin|Hnin].
  - destruct (times_once_split h a Ht Hin) as (l1 & l2 & -> & H1 & H2).
    destruct (unregister_range_once h l1 l2 w H1 H2) as (a' & Hrun & Htake).
    unfold bind at 1. rewrite Hrun. rewrite Htake.
    rewrite remove_first_middle by done.
    destruct (l1 ++ l2) eqn:E; simpl; by run.
  - unfold bind at 1. rewrite unregister_range_absent by done. simpl.
    rewrite firstn_all. rewrite remove_first_absent by done.
    destruct a; simpl; by run.
Qed.

Lemma remove_first_gone h a : times h a ≤ 1 → h ∉ remove_first h a.
Proof.
  intros Ht. destruct (decide (h ∈ a)) as [Hin|Hnin].
  - destruct (times_once_split h a Ht Hin) as (l1 & l2 & -> & H1 & H2).
    rewrite remove_first_middle by done. by apply not_elem_of_app.
  - by rewrite remove_first_absent.
Qed.

Lemma notified_elem r ord path h :
  h ∈ notified r ord path →
  ∃ p a, r !! p = Some a ∧ Go.HasPrefix p path = true ∧ h ∈ a.
Proof.
  unfold notified. intros Hh.
  apply list_elem_of_bind in Hh as (p & Hh & _).
  destruct (Go.HasPrefix p path) eqn:Hpre; [|by apply elem_of_nil in Hh].
  destruct (r !! p) as [a|] eqn:Hp; [|by apply elem_of_nil in Hh].
  by exists p, a.
Qed.

(** C8, as amended. [unregisterEvent] leaves the client as it is when
    the path has no entry. For a non-empty path whose entry [a] holds
    the handle at most once, it returns, and the entry becomes [a]
    without its first element identical to the handle; the entry is
    deleted when nothing is left; the handle is then no longer in the
    entry, and if no other path holds it, no later change event sends
    it a notification. *)
Theorem unregisterEvent_removes_single_handle (w : world) (p : string)
    (h : handle) :
  (eventRegistry (z w) !! p = None → unregisterEvent p h w = Ret tt w)
  ∧ (∀ a, p ≠ "" → eventRegistry (z w) !! p = Some a → times h a ≤ 1 →
      ∃ w', unregisterEvent p h w = Ret tt w'
        ∧ trace w' = trace w
        ∧ eventRegistry (z w')
          = (if decide (remove_first h a = [])
             then delete p (eventRegistry (z w))
             else <[p := remove_first h a]> (eventRegistry (z w)))
        ∧ (h ∉ remove_first h a)
        ∧ ∀ ord state event,
            State event = EventNodeDataChanged
            ∨ State event = EventNodeChildrenChanged →
            (∀ p' a', p' ≠ p → eventRegistry (z w) !! p' = Some a' → h ∉ a') →
            ∃ w'' sent,
              handle_event ord state event w'
              = Ret (next_iteration, State event) w''
              ∧ trace w'' = trace w' ++ (Notify <$> sent)
              ∧ h ∉ sent).
Proof.
  split.
  - intros Hnone. unfold unregisterEvent.
    destruct (bool_decide (p = "")); [done|]. run. by rewrite Hnone.
  - intros a Hp Ha Ht.
    eexists. split; [by apply unregisterEvent_at_most_once|].
    split; [done|]. split; [done|].
    split; [by apply remove_first_gone|].
    intros ord state event Hs Hother.
    eexists _, _. split; [by apply node_changed_event|].
    split; [done|].
    intros Hin. apply notified_elem in Hin as (p' & a' & Hp' & _ & Hin).
    simpl in Hp'. destruct (decide (p' = p)) as [->|Hne].
    + destruct (decide (remove_first h a = [])).
      * by rewrite lookup_delete_eq in Hp'.
      * rewrite lookup_insert_eq in Hp'. simplify_eq.
        by apply (remove_first_gone h a).
    + destruct (decide (remove_first h a = [])).
      * rewrite lookup_delete_ne in Hp' by done. by eapply Hother.
      * rewrite lookup_insert_ne in Hp' by done. by eapply Hother.
Qed.

(** *** The registry invariant *)

Definition registry_ok (r : gmap string (list handle)) : Prop :=
  ∀ p a, r !! p = Some a → a ≠ [].

(** The operations of the client and of its background goroutine. *)
Inductive operation :=
| op_registerEvent (zkPath : string) (event : handle)
| op_unregisterEvent (zkPath : string) (event : handle)
| op_handle_event (ord : list string) (state : Z) (event : Event)
| op_stop
| op_Close
| op_Create (basePath : string)
| op_Delete (basePath : string)
| op_RegisterTemp (basePath node : string)
| op_RegisterTempSeq (basePath : string) (data : list byte)
| op_getChildren (path : string)
| op_getChildrenW (path : string)
| op_existW (zkPath : string).

Definition perform (o : operation) : M unit :=
  match o with
  | op_registerEvent p e => registerEvent p e
  | op_unregisterEvent p e => unregisterEvent p e
  | op_handle_event ord state event => handle_event ord state event >> ret tt
  | op_stop => stop >> ret tt
  | op_Close => Close
  | op_Create p => Create p >> ret tt
  | op_Delete p => Delete p >> ret tt
  | op_RegisterTemp p n => RegisterTemp p n >> ret tt
  | op_RegisterTempSeq p d => RegisterTempSeq p d >> ret tt
  | op_getChildren p => getChildren p >> ret tt
  | op_getChildrenW p => getChildrenW p >> ret tt
  | op_existW p => existW p >> ret tt
  end.

Fixpoint perform_all (os : list operation) : M unit :=
  match os with
  | [] => ret tt
  | o :: os' => perform o >> perform_all os'
  end.

Lemma registry_ok_empty : registry_ok ∅.
Proof. intros p a Hp. by rewrite lookup_empty in Hp. Qed.

Lemma registry_ok_insert r p a :
  registry_ok r → a ≠ [] → registry_ok (<[p := a]> r).
Proof.
  intros Hr Ha q b Hq. destruct (decide (p = q)) as [->|Hne].
  - rewrite lookup_insert_eq in Hq. by simplify_eq.
  - rewrite lookup_insert_ne in Hq by done. by eapply Hr.
Qed.

Lemma registry_ok_delete r p : registry_ok r → registry_ok (delete p r).
Proof.
  intros Hr q b Hq. destruct (decide (p = q)) as [->|Hne].
  - by rewrite lookup_delete_eq in Hq.
  - rewrite lookup_delete_ne in Hq by done. by eapply Hr.
Qed.

Lemma unregister_range_world h idx a w a' w' :
  unregister_range h idx a w = Ret a' w' → w' = w.
Proof.
  revert a. induction idx as [|i idx IH]; intros a; simpl.
  - run. by intros [= _ <-].
  - destruct (arr a !! i) as [e|]; [|apply IH].
    destruct (decide (e = h)); [|apply IH].
    unfold remove_at. destruct (decide (i + 1 ≤ len a)); run; [apply IH|done].
Qed.

Lemma registerEvent_registry_ok p e w w' :
  registry_ok (eventRegistry (z w)) →
  registerEvent p e w = Ret tt w' → registry_ok (eventRegistry (z w')).
Proof.
  intros Hr. unfold registerEvent.
  destruct (bool_decide (p = "") || bool_decide (e = nil_handle)).
  - run. by intros [= <-].
  - run. intros [= <-]. simpl. apply registry_ok_insert; [done|].
    by destruct (default [] (eventRegistry (z w) !! p)).
Qed.

Lemma unregisterEvent_registry_ok p e w w' :
  registry_ok (eventRegistry (z w)) →
  unregisterEvent p e w = Ret tt w' → registry_ok (eventRegistry (z w')).
Proof.
  intros Hr. unfold unregisterEvent.
  destruct (bool_decide (p = "")); [run; by intros [= <-]|].
  unfold bind at 1. unfold get at 1.
  destruct (eventRegistry (z w) !! p) as [a0|]; [|run; by intros [= <-]].
  unfold bind at 1.
  destruct (unregister_range e _ _ w) as [a' w1| |] eqn:Hrun; [|done|done].
  apply unregister_range_world in Hrun as ->.
  destruct (length (take (len a') (arr a')) =? 0) eqn:Hlen; run; intros [= <-];
    simpl.
  - by apply registry_ok_delete.
  - apply registry_ok_insert; [done|].
    apply Nat.eqb_neq in Hlen. by destruct (take (len a') (arr a')).
Qed.

(** The node operations and the shutdown path never write the
    registry. *)
Definition keeps_registry {A} (m : M A) : Prop :=
  ∀ w a w', m w = Ret a w' → eventRegistry (z w') = eventRegistry (z w).

Lemma keeps_registry_ret {A} (a : A) : keeps_registry (ret a).
Proof. intros w b w'. run. by intros [= _ <-]. Qed.

Lemma keeps_registry_bind {A B} (m : M A) (f : A → M B) :
  keeps_registry m → (∀ a, keeps_registry (f a)) → keeps_registry (bind m f).
Proof.
  intros Hm Hf w b w'. unfold bind.
  destruct (m w) as [a w1| |] eqn:E; [|done|done].
  intros Hfa. apply Hf in Hfa. apply Hm in E. congruence.
Qed.

Lemma keeps_registry_get : keeps_registry get.
Proof. intros w b w'. run. by intros [= _ <-]. Qed.

Lemma keeps_registry_modify f :
  (∀ w, eventRegistry (z (f w)) = eventRegistry (z w)) →
  keeps_registry (modify f).
Proof. intros Hf w b w'. run. inversion 1; subst. apply Hf. Qed.

Lemma keeps_registry_throw {A} p : keeps_registry (@throw A p).
Proof. by intros w b w'. Qed.

Lemma keeps_registry_block {A} : keeps_registry (@block A).
Proof. by intros w b w'. Qed.

Ltac keeps :=
  repeat first
    [ apply keeps_registry_ret
    | apply keeps_registry_get
    | apply keeps_registry_throw
    | apply keeps_registry_block
    | apply keeps_registry_modify; intros; reflexivity
    | apply keeps_registry_bind; [|intros ?]
    | match goal with
      | |- keeps_registry (match ?x with _ => _ end) => destruct x
      | |- keeps_registry (if ?x then _ else _) => destruct x
      | |- keeps_registry (let '(_, _) := ?x in _) => destruct x
      end ].

Lemma stop_keeps_registry : keeps_registry stop.
Proof. unfold stop, exit_fired, close_exit. keeps. Qed.

Lemma release_conn_keeps_registry : keeps_registry release_conn.
Proof. unfold release_conn, call_Close. keeps. Qed.

Lemma Close_keeps_registry : keeps_registry Close.
Proof.
  unfold Close. apply keeps_registry_bind; [apply stop_keeps_registry|].
  intros _. apply keeps_registry_bind; [|intros _; apply release_conn_keeps_registry].
  unfold wait_Wait. keeps.
Qed.

Lemma send_all_keeps_registry a : keeps_registry (send_all a).
Proof. induction a; simpl; keeps. done. Qed.

Lemma notify_range_keeps_registry ord path :
  keeps_registry (notify_range ord path).
Proof.
  induction ord as [|p ord IH]; simpl; keeps; try apply send_all_keeps_registry;
    done.
Qed.

Lemma handle_event_keeps_registry ord state event :
  keeps_registry (handle_event ord state event).
Proof.
  unfold handle_event.
  repeat match goal with
         | |- keeps_registry (if ?x then _ else _) => destruct x
         end.
  - apply keeps_registry_bind; [apply stop_keeps_registry|intros _].
    apply keeps_registry_bind; [apply release_conn_keeps_registry|intros _].
    keeps.
  - apply keeps_registry_bind; [apply notify_range_keeps_registry|intros _].
    keeps.
  - keeps.
  - apply keeps_registry_bind; [keeps|intros w0].
    apply keeps_registry_bind; [|intros _; keeps].
    destruct (eventRegistry (z w0) !! Path event); [|keeps].
    destruct (0 <? length l); [apply send_all_keeps_registry|keeps].
  - keeps.
Qed.

Lemma call_Create_keeps_registry p d f a :
  keeps_registry (call_Create p d f a).
Proof. unfold call_Create. keeps. Qed.

Lemma Create_range_keeps_registry basePath tmpPath strs :
  keeps_registry (Create_range basePath tmpPath strs).
Proof.
  revert tmpPath. induction strs as [|str strs IH]; intros tmpPath; simpl.
  - keeps.
  - apply keeps_registry_bind; [keeps|intros w0].
    apply keeps_registry_bind.
    + destruct (conn (z w0)); [|keeps].
      apply keeps_registry_bind; [apply call_Create_keeps_registry|intros ?].
      keeps.
    + intros [e|]; [|apply IH].
      destruct (decide _); [apply IH|keeps].
Qed.

Lemma perform_keeps_or_ok o w w' :
  registry_ok (eventRegistry (z w)) →
  perform o w = Ret tt w' → registry_ok (eventRegistry (z w')).
Proof.
  intros Hr Ho.
  assert (∀ A (m : M A), keeps_registry m → (m >> ret tt) w = Ret tt w' →
                         registry_ok (eventRegistry (z w'))) as Hk.
  { intros A m Hm Hrun.
    assert (keeps_registry (m >> ret tt)) as Hm' by (keeps; done).
    apply Hm' in Hrun. by rewrite Hrun. }
  destruct o; simpl in Ho.
  - by eapply registerEvent_registry_ok.
  - by eapply unregisterEvent_registry_ok.
  - eapply Hk; [|done]. apply handle_event_keeps_registry.
  - eapply Hk; [|done]. apply stop_keeps_registry.
  - apply Close_keeps_registry in Ho. by rewrite Ho.
  - eapply Hk; [|done]. apply Create_range_keeps_registry.
  - eapply Hk; [|done]. unfold Delete, call_Delete. keeps.
  - eapply Hk; [|done]. unfold RegisterTemp.
    apply keeps_registry_bind; [keeps|intros w0].
    apply keeps_registry_bind;
      [destruct (conn (z w0)); [apply call_Create_keeps_registry|keeps]|].
    intros r. destruct r.2; keeps.
  - eapply Hk; [|done]. unfold RegisterTempSeq.
    apply keeps_registry_bind; [keeps|intros w0].
    apply keeps_registry_bind;
      [destruct (conn (z w0)); [apply call_Create_keeps_registry|keeps]|].
    intros r. destruct r.2; keeps.
  - eapply Hk; [|done]. unfold getChildren, call_Children.
    apply keeps_registry_bind; [keeps|intros w0].
    apply keeps_registry_bind; [destruct (conn (z w0)); keeps|].
    intros [[c st] [e|]]; keeps.
  - eapply Hk; [|done]. unfold getChildrenW, call_ChildrenW.
    apply keeps_registry_bind; [keeps|intros w0].
    apply keeps_registry_bind; [destruct (conn (z w0)); keeps|].
    intros [[[c st] wt] [e|]]; keeps.
  - eapply Hk; [|done]. unfold existW, call_ExistsW.
    apply keeps_registry_bind; [keeps|intros w0].
    apply keeps_registry_bind; [destruct (conn (z w0)); keeps|].
    intros [[[c st] wt] [e|]]; keeps.
Qed.

(** C9. Starting from the client that [newZookeeperClient] returns
    (empty registry), after any sequence of operations that runs to its
    end (registrations, unregistrations, events handled by the
    background goroutine, shutdown and node operations, with any
    arguments), no path of the registry is mapped to an empty list of
    handles. *)
Theorem registry_never_maps_to_empty (name : string) (zkAddrs : list string)
    (timeout : Z) (st : Store) (os : list operation) (w : world) :
  perform_all os (new_world name zkAddrs timeout st) = Ret tt w →
  registry_ok (eventRegistry (z w)).
Proof.
  assert (∀ os w0, registry_ok (eventRegistry (z w0)) →
                   perform_all os w0 = Ret tt w →
                   registry_ok (eventRegistry (z w))) as Hgen.
  { clear os. intros os. induction os as [|o os IH]; intros w0 Hr; simpl.
    - run. by intros [= <-].
    - unfold bind. destruct (perform o w0) as [[] w1| |] eqn:Ho; [|done|done].
      apply IH. by eapply perform_keeps_or_ok. }
  apply Hgen. simpl. apply registry_ok_empty.
Qed.

(** *** Creating a path level by level *)

(** The values that [tmpPath] takes in the loop of [Create]. *)
Fixpoint sub_paths (tmpPath : string) (strs : list string) : list string :=
  match strs with
  | [] => []
  | str :: strs' =>
      let tmpPath := Go.path_Join [tmpPath; "/"; str] in
      tmpPath :: sub_paths tmpPath strs'
  end.

Definition create_paths (basePath : string) : list string :=
  sub_paths "" (tail (Go.Split basePath "/"%char)).

(** The call that creates a persistent node with empty content and the
    world/all-permissions ACL. *)
Definition create_persistent (p : string) : effect :=
  CallCreate p [] 0 (WorldACL PermAll).

(** The answer of the store to that call, and the store after it. *)
Definition reply (p : string) (st : Store) : option zk_error :=
  (conn_Create p [] 0 (WorldACL PermAll) st).1.2.

Definition after_create (p : string) (st : Store) : Store :=
  (conn_Create p [] 0 (WorldACL PermAll) st).2.

(** An element of a path that [path.Clean] keeps as it is. *)
Definition plain (s : string) : Prop :=
  s ≠ "" ∧ s ≠ "." ∧ s ≠ ".." ∧ occurs "/" s = false.

(** The absolute path with the elements [segs]. *)
Definition abs_path (segs : list string) : string :=
  "/" +:+ Go.Join segs "/".

Lemma Split_no_sep s sep : occurs sep s = false → Go.Split s sep = [s].
Proof.
  induction s as [|c s IH]; simpl; [done|].
  intros Ho. apply orb_false_iff in Ho as [Hc Ho].
  rewrite Hc. by rewrite IH.
Qed.

Lemma Split_app s t sep :
  Go.Split (s +:+ String sep t) sep = Go.Split s sep ++ Go.Split t sep.
Proof.
  induction s as [|c s IH].
  - simpl. by rewrite Ascii.eqb_refl.
  - change (String c s +:+ String sep t) with (String c (s +:+ String sep t)).
    simpl. rewrite IH. destruct (Ascii.eqb c sep); [done|].
    destruct (Go.Split s sep) eqn:E; [|done].
    by destruct (Split_nonempty s sep).
Qed.

Lemma Split_sep_cons t sep :
  Go.Split (String sep t) sep = "" :: Go.Split t sep.
Proof. simpl. by rewrite Ascii.eqb_refl. Qed.

Lemma Split_Join segs :
  segs ≠ [] → Forall plain segs → Go.Split (Go.Join segs "/") "/" = segs.
Proof.
  induction segs as [|x [|y r] IH]; [done| |]; intros _ Hp.
  - simpl. apply Split_no_sep. apply Forall_cons in Hp as [Hx _]. apply Hx.
  - change (Go.Join (x :: y :: r) "/")
      with (x +:+ String "/" (Go.Join (y :: r) "/")).
    apply Forall_cons in Hp as [Hx Hp].
    rewrite Split_app, IH by done.
    rewrite Split_no_sep by apply Hx. done.
Qed.

Lemma clean_elem_plain rooted out s :
  plain s → Go.clean_elem rooted out s = s :: out.
Proof.
  intros (H1 & H2 & H3 & _). unfold Go.clean_elem.
  by rewrite !(proj2 (String.eqb_neq _ _)).
Qed.

Lemma clean_fold_plain rooted segs out :
  Forall plain segs →
  fold_left (Go.clean_elem rooted) segs out = rev segs ++ out.
Proof.
  revert out. induction segs as [|s segs IH]; intros out Hp; simpl; [done|].
  apply Forall_cons in Hp as [Hs Hp].
  rewrite clean_elem_plain, IH by done. by rewrite <- app_assoc.
Qed.

Lemma path_Join_first_level s :
  plain s → Go.path_Join [""; "/"; s] = abs_path [s].
Proof.
  intros Hs. simpl Go.path_Join.
  change (Go.Join ["/"; s] "/") with (String "/" (String "/" s)).
  unfold Go.Clean. simpl Ascii.eqb. cbv iota.
  simpl Go.Split. rewrite Split_no_sep by apply Hs.
  simpl fold_left. by rewrite clean_elem_plain.
Qed.

Lemma path_Join_next_level segs s :
  segs ≠ [] → Forall plain segs → plain s →
  Go.path_Join [abs_path segs; "/"; s] = abs_path (segs ++ [s]).
Proof.
  intros Hne Hp Hs. unfold Go.path_Join.
  change (abs_path segs =? "")%string with false. cbv iota.
  change (Go.Join [abs_path segs; "/"; s] "/")
    with (String "/" (Go.Join segs "/" +:+ String "/" (String "/" (String "/" s)))).
  unfold Go.Clean. simpl Ascii.eqb. cbv iota.
  assert (Go.Split (String "/" (Go.Join segs "/"
                                +:+ String "/" (String "/" (String "/" s)))) "/"
          = "" :: segs ++ [""; ""; s]) as ->.
  { rewrite Split_sep_cons, Split_app, Split_Join by done.
    by rewrite !Split_sep_cons, Split_no_sep by apply Hs. }
  simpl fold_left. change (Go.clean_elem true [] "") with (@nil string).
  rewrite fold_left_app, (clean_fold_plain true segs) by done.
  simpl fold_left.
  change (Go.clean_elem true (rev segs ++ []) "") with (rev segs ++ []).
  change (Go.clean_elem true (rev segs ++ []) "") with (rev segs ++ []).
  rewrite clean_elem_plain by done.
  rewrite app_nil_r. simpl rev. rewrite rev_involutive. done.
Qed.

Lemma sub_paths_cons tmpPath str strs :
  sub_paths tmpPath (str :: strs)
  = Go.path_Join [tmpPath; "/"; str]
    :: sub_paths (Go.path_Join [tmpPath; "/"; str]) strs.
Proof. reflexivity. Qed.

Lemma sub_paths_plain pre rest :
  pre ≠ [] → Forall plain pre → Forall plain rest →
  sub_paths (abs_path pre) rest
  = (fun k => abs_path (pre ++ take k rest)) <$> seq 1 (length rest).
Proof.
  revert pre. induction rest as [|s rest IH]; intros pre Hne Hp Hr; [done|].
  apply Forall_cons in Hr as [Hs Hr].
  rewrite sub_paths_cons, path_Join_next_level by done.
  rewrite IH;
    [|by destruct pre|apply Forall_app_2; [done|by apply Forall_singleton]|done].
  simpl length. simpl seq. rewrite fmap_cons. simpl take. f_equal.
  rewrite <- (fmap_S_seq 1), <- list_fmap_compose.
  apply list_fmap_ext. intros _ k _. simpl.
  by rewrite <- app_assoc.
Qed.

(** For an absolute path of plain elements the loop goes through the
    ancestors, from the first level down to the path itself. *)
Lemma create_paths_absolute s segs :
  Forall plain (s :: segs) →
  create_paths (abs_path (s :: segs))
  = (fun k => abs_path (take k (s :: segs))) <$> seq 1 (length (s :: segs)).
Proof.
  intros Hp. unfold create_paths.
  change (Go.Split (abs_path (s :: segs)) "/")
    with ("" :: Go.Split (Go.Join (s :: segs) "/") "/").
  rewrite Split_Join by done. simpl tail.
  apply Forall_cons in Hp as [Hs Hp].
  rewrite sub_paths_cons, path_Join_first_level by done.
  rewrite (sub_paths_plain [s]); [|done|by apply Forall_singleton|done].
  simpl length. simpl seq. rewrite fmap_cons. f_equal.
  rewrite <- (fmap_S_seq 1), <- list_fmap_compose. done.
Qed.

(** The creations asked of the store for the levels [paths], from
    store [st]: the levels attempted, the error that stopped the run
    (none when it went through), and the store at the end. The run goes
    on after a success and after [ErrNodeExists]; any other error stops
    it. *)
Fixpoint create_levels (paths : list string) (st : Store)
  : list string * option zk_error * Store :=
  match paths with
  | [] => ([], None, st)
  | p :: paths' =>
      let go_on :=
        let '(a, f, st') := create_levels paths' (after_create p st) in
        (p :: a, f, st') in
      match reply p st with
      | None => go_on
      | Some e =>
          if decide (e = ErrNodeExists) then go_on
          else ([p], Some e, after_create p st)
      end
  end.

Definition store_after (pre : list string) (st : Store) : Store :=
  fold_left (fun st q => after_create q st) pre st.

(** A node the store reports as existing. *)
Definition node_present (st : Store) (p : string) : Prop :=
  reply p st = Some ErrNodeExists.

(** A store that keeps its nodes: a node created or found existing is
    reported as existing from then on, whatever else is created. *)
Definition keeps_nodes : Prop :=
  ∀ p st,
    (reply p st = None ∨ reply p st = Some ErrNodeExists →
     node_present (after_create p st) p)
    ∧ (∀ q, node_present st q → node_present (after_create p st) q).

Definition create_error (basePath : string) (fatal : option zk_error)
  : option error :=
  jerrors_Annotatef (lift_zk fatal) ("zk.Create(path:" +:+ basePath +:+ ")").

Lemma Create_range_cons basePath tmpPath str strs :
  Create_range basePath tmpPath (str :: strs)
  = let t := Go.path_Join [tmpPath; "/"; str] in
    let* w := get in
    let* err :=
      match conn (z w) with
      | Some _ =>
          let* r := call_Create t [] 0 (WorldACL PermAll) in ret r.2
      | None => ret (Some ZK_CLIENT_CONN_NIL_ERR)
      end in
    match err with
    | Some e =>
        if decide (e = ZkError ErrNodeExists)
        then Create_range basePath t strs
        else ret (jerrors_Annotatef err ("zk.Create(path:" +:+ basePath +:+ ")"))
    | None => Create_range basePath t strs
    end.
Proof. reflexivity. Qed.

Lemma Create_range_levels basePath tmpPath strs w :
  conn (z w) = Some session →
  Create_range basePath tmpPath strs w
  = let '(a, f, st') := create_levels (sub_paths tmpPath strs) (store w) in
    Ret (create_error basePath f)
        {| z := z w; store := st'; session_closed := session_closed w;
           trace := trace w ++ (create_persistent <$> a) |}.
Proof.
  revert tmpPath w. induction strs as [|str strs IH]; intros tmpPath w Hc.
  - simpl. run. destruct w. simpl. by rewrite app_nil_r.
  - rewrite sub_paths_cons, Create_range_cons.
    generalize (Go.path_Join [tmpPath; "/"; str]) as t. intros t.
    cbv zeta. simpl create_levels.
    unfold call_Create, reply, after_create. run_with Hc.
    destruct (conn_Create t [] 0 (WorldACL PermAll) (store w))
      as [[tp [e|]] st1] eqn:Hcall; simpl.
    + destruct (decide (e = ErrNodeExists)) as [->|Hne].
      * rewrite decide_True by done.
        rewrite IH by done. simpl.
        destruct (create_levels (sub_paths t strs) st1) as [[a f] st2].
        simpl. by rewrite <- app_assoc.
      * rewrite decide_False by congruence. done.
    + rewrite IH by done. simpl.
      destruct (create_levels (sub_paths t strs) st1) as [[a f] st2].
      simpl. by rewrite <- app_assoc.
Qed.

Lemma create_levels_prefix paths st a f st' :
  create_levels paths st = (a, f, st') →
  a `prefix_of` paths
  ∧ st' = store_after a st
  ∧ (f = None → a = paths)
  ∧ (∀ e, f = Some e →
          e ≠ ErrNodeExists
          ∧ ∃ pre p, a = pre ++ [p] ∧ reply p (store_after pre st) = Some e).
Proof.
  revert st a f st'. induction paths as [|p paths IH]; intros st a f st'; simpl.
  - intros [= <- <- <-]. split; [done|]. split; [done|]. split; [done|].
    by intros e.
  - assert (∀ a0 f0 st0,
               create_levels paths (after_create p st) = (a0, f0, st0) →
               (p :: a0, f0, st0) = (a, f, st') →
               a `prefix_of` p :: paths ∧ st' = store_after a st
               ∧ (f = None → a = p :: paths)
               ∧ (∀ e, f = Some e →
                    e ≠ ErrNodeExists
                    ∧ ∃ pre q, a = pre ++ [q]
                               ∧ reply q (store_after pre st) = Some e)) as Hgo.
    { intros a0 f0 st0 Hrun [= <- <- <-].
      apply IH in Hrun as (Hpre & Hst & Hall & Herr).
      split; [by apply prefix_cons|]. split; [done|].
      split; [intros ->; by rewrite Hall|].
      intros e He. destruct (Herr e He) as (Hne & pre & q & -> & Hq).
      split; [done|]. by exists (p :: pre), q. }
    destruct (create_levels paths (after_create p st)) as [[a0 f0] st0] eqn:Hrun.
    destruct (reply p st) as [e|] eqn:Hr; [|by eapply Hgo].
    destruct (decide (e = ErrNodeExists)) as [->|Hne]; [by eapply Hgo|].
    intros [= <- <- <-]. split; [apply prefix_cons, prefix_nil|].
    split; [done|]. split; [done|].
    intros e' [= <-]. split; [done|]. by exists [], p.
Qed.

Lemma create_levels_keeps paths st a f st' q :
  keeps_nodes → node_present st q →
  create_levels paths st = (a, f, st') → node_present st' q.
Proof.
  intros Hk. revert st a f st'.
  induction paths as [|p paths IH]; intros st a f st' Hq; simpl.
  - by intros [= <- <- <-].
  - assert (node_present (after_create p st) q) as Hq' by by apply Hk.
    destruct (create_levels paths (after_create p st)) as [[a0 f0] st0] eqn:Hrun.
    apply (IH _ _ _ _ Hq') in Hrun.
    destruct (reply p st) as [e|]; [|by intros [= <- <- <-]].
    destruct (decide (e = ErrNodeExists)); by intros [= <- <- <-].
Qed.

Lemma create_levels_all_present paths st a st' :
  keeps_nodes → create_levels paths st = (a, None, st') →
  Forall (node_present st') paths.
Proof.
  intros Hk. revert st a.
  induction paths as [|p paths IH]; intros st a; simpl; [done|].
  destruct (create_levels paths (after_create p st)) as [[a0 f0] st0] eqn:Hrun.
  assert ((p :: a0, f0, st0) = (a, None, st') →
          (reply p st = None ∨ reply p st = Some ErrNodeExists) →
          Forall (node_present st') (p :: paths)) as Hgo.
  { intros [= <- -> ->] Hr. apply Forall_cons. split; [|by eapply IH].
    eapply create_levels_keeps; [done| |done].
    by apply (proj1 (Hk p st)). }
  destruct (reply p st) as [e|] eqn:Hr; [|intros Heq; apply Hgo; auto].
  destruct (decide (e = ErrNodeExists)) as [->|Hne]; [|done].
  intros Heq. apply Hgo; auto.
Qed.

Lemma create_levels_again paths st :
  keeps_nodes → Forall (node_present st) paths →
  ∃ st', create_levels paths st = (paths, None, st').
Proof.
  intros Hk. revert st.
  induction paths as [|p paths IH]; intros st Hall; simpl; [by eexists|].
  apply Forall_cons in Hall as [Hp Hall].
  unfold node_present in Hp. rewrite Hp. rewrite decide_True by done.
  destruct (IH (after_create p st)) as [st' ->]; [|by eexists].
  eapply Forall_impl; [exact Hall|]. intros q Hq. by apply Hk.
Qed.

(** C5, as amended. With a live connection [Create] asks the store to
    create, one after the other and in this order, the levels that
    [create_paths] computes from the path split at its slashes, each as
    a persistent node with empty content and the world/all-permissions
    ACL; for an absolute path of plain elements these are its ancestors
    from the first level down, then the path itself. The run goes on
    after [ErrNodeExists] and returns nil when no other error occurs;
    the first other error stops it at once, and the result is that
    error annotated with the requested path only. When the first call
    returned nil and the store keeps its nodes, a second call returns
    nil as well. *)
Theorem Create_level_by_level (w : world) (basePath : string) :
  conn (z w) = Some session →
  ∃ attempted fatal w',
    Create basePath w
    = Ret match fatal with
          | None => None
          | Some e => Some (Annotated (ZkError e)
                              ("zk.Create(path:" +:+ basePath +:+ ")"))
          end w'
    ∧ z w' = z w
    ∧ trace w' = trace w ++ (create_persistent <$> attempted)
    ∧ create_levels (create_paths basePath) (store w)
      = (attempted, fatal, store w')
    ∧ attempted `prefix_of` create_paths basePath
    ∧ (fatal = None → attempted = create_paths basePath)
    ∧ (∀ e, fatal = Some e →
            e ≠ ErrNodeExists
            ∧ ∃ pre p, attempted = pre ++ [p]
                       ∧ reply p (store_after pre (store w)) = Some e)
    ∧ (∀ s segs, basePath = abs_path (s :: segs) → Forall plain (s :: segs) →
                 create_paths basePath
                 = (fun k => abs_path (take k (s :: segs)))
                   <$> seq 1 (length (s :: segs)))
    ∧ (keeps_nodes → fatal = None →
       ∃ w'', Create basePath w' = Ret None w'').
Proof.
  intros Hc. unfold Create. rewrite Create_range_levels by done.
  fold (create_paths basePath).
  destruct (create_levels (create_paths basePath) (store w))
    as [[a f] st'] eqn:Hrun.
  exists a, f. eexists. split.
  { unfold create_error, jerrors_Annotatef, lift_zk. destruct f; reflexivity. }
  simpl. split; [done|]. split; [done|]. split; [done|].
  destruct (create_levels_prefix _ _ _ _ _ Hrun) as (Hpre & Hst & Hall & Herr).
  split; [done|]. split; [done|]. split; [done|]. split.
  - intros s segs -> Hp. by apply create_paths_absolute.
  - intros Hk ->.
    apply create_levels_all_present in Hrun; [|done].
    destruct (create_levels_again _ _ Hk Hrun) as [st'' Hagain].
    eexists. rewrite Create_range_levels by done.
    fold (create_paths basePath). simpl store. rewrite Hagain. reflexivity.
Qed.

(** *** Releasing the connection *)

(** How many times the session has been closed in a trace. *)
Definition releases (t : list effect) : nat :=
  length (filter (fun e => e = ConnClose) t).

Lemma releases_app t1 t2 : releases (t1 ++ t2) = releases t1 + releases t2.
Proof. unfold releases. by rewrite filter_app, length_app. Qed.

Lemma releases_notify l : releases (Notify <$> l) = 0.
Proof.
  induction l as [|h l IH]; [done|].
  unfold releases in *. rewrite fmap_cons, filter_cons_False by done. done.
Qed.

(** An event other than a disconnection only sends notifications. *)
Lemma handle_event_sends ord state event w :
  (State event =? StateDisconnected)%Z = false →
  ∃ r l, handle_event ord state event w = Ret r (sent_to l w).
Proof.
  intros Hd. unfold handle_event. rewrite Hd.
  destruct (_ || _).
  { run. rewrite notify_range_spec. eauto. }
  destruct (_ || _); [|exists (next_iteration, State event), []; run;
                       by rewrite sent_to_nil].
  destruct (_ || _).
  { exists (next_iteration, state), []. run. by rewrite sent_to_nil. }
  run. destruct (eventRegistry (z w) !! Path event) as [a|].
  - destruct (0 <? length a).
    + rewrite send_all_spec. eauto.
    + eexists _, []. by rewrite sent_to_nil.
  - eexists _, []. by rewrite sent_to_nil.
Qed.

(** What a caller of [Close] can rely on at each point of the call. *)
Definition closer_ok (w : world) (b : bg_pc) (pc : close_pc) : Prop :=
  match pc with
  | close_called | close_stop_close => True
  | close_wait => exit (z w) = true
  | close_release => exit (z w) = true ∧ b = bg_exited
  | close_returned => exit (z w) = true ∧ b = bg_exited ∧ conn (z w) = None
  end.

(** What holds in every state of the system. *)
Definition inv (s : system) : Prop :=
  let w := shared s in
  (conn (z w) = Some session → session_closed w = false)
  ∧ releases (trace w) = (if session_closed w then 1 else 0)
  ∧ crashed s ≠ Some conn_closed_twice
  ∧ wait (z w) = match bg s with bg_exited => 0 | _ => 1 end
  ∧ match bg s with
    | bg_release | bg_break | bg_exited => exit (z w) = true
    | _ => True
    end
  ∧ ∀ i pc, closers s !! i = Some pc → closer_ok w (bg s) pc.

Lemma inv_initial name zkAddrs timeout st n :
  inv (initial name zkAddrs timeout st n).
Proof.
  unfold inv, initial; simpl. repeat split; try done.
  intros i pc Hi. apply lookup_replicate in Hi as [-> _]. done.
Qed.

Ltac closers_ok :=
  match goal with
  | I6 : ∀ i pc, closers _ !! i = Some pc → _ |- _ =>
      let i := fresh "i" in let pc := fresh "pc" in let Hi := fresh "Hi" in
      intros i pc Hi; specialize (I6 i pc Hi);
      destruct pc; unfold closer_ok in *; simpl in *; intuition congruence
  end.

Ltac inv_done :=
  unfold inv; simpl;
  rewrite ?releases_app, ?releases_notify; simpl; rewrite ?Nat.add_0_r;
  repeat split; try done; try lia; try (intros; congruence); try closers_ok.

Lemma inv_background c s s' :
  inv s → thread_step (background c) s = Some s' → inv s'.
Proof.
  intros (I1 & I2 & I3 & I4 & I5 & I6). unfold thread_step.
  destruct (crashed s) eqn:Hcr; [done|].
  destruct (bg s) eqn:Hbg; simpl.
  - (* at the select *)
    destruct c as [|ord event]; simpl.
    + unfold exit_fired. run.
      destruct (exit (z (shared s))) eqn:He; [|done].
      intros [= <-]. inv_done.
    + destruct (State event =? StateDisconnected)%Z eqn:Hd.
      * run. intros [= <-]. inv_done.
      * destruct (handle_event_sends ord state event (shared s) Hd)
          as (r & l & Hrun).
        run. rewrite Hrun. intros [= <-]. inv_done.
  - (* the select of stop *)
    unfold exit_fired. run. intros [= <-].
    destruct (exit (z (shared s))) eqn:He; inv_done.
  - (* close(z.exit) *)
    unfold close_exit. run.
    destruct (exit (z (shared s))) eqn:He; simpl; intros [= <-];
      rewrite ?Hbg; inv_done.
  - (* the locked section *)
    unfold release_conn, call_Close. run.
    destruct (conn (z (shared s))) as [[]|] eqn:Hc; simpl.
    + rewrite I1 by done. simpl. intros [= <-].
      specialize (I1 eq_refl). rewrite I1 in I2. inv_done.
      by rewrite I2.
    + intros [= <-]. inv_done.
  - (* the deferred Done *)
    unfold wait_Done. run. intros [= <-]. inv_done.
  - done.
Qed.

Lemma closers_update (P : close_pc → Prop) (cl : list close_pc) (i : nat) pc' :
  (∀ j pc, cl !! j = Some pc → P pc) → P pc' →
  ∀ j pc, <[i := pc']> cl !! j = Some pc → P pc.
Proof.
  intros Hall Hnew j pc Hj.
  apply list_lookup_insert_Some in Hj as [(_ & <- & _)|(_ & Hj)]; eauto.
Qed.

Ltac closer_done I6 :=
  unfold inv; simpl;
  rewrite ?releases_app; simpl; rewrite ?Nat.add_0_r;
  repeat split; try done; try lia; try (intros; congruence);
  try (by destruct (bg _));
  try (apply (closers_update (closer_ok _ _));
       [ let j := fresh "j" in let pc := fresh "pc" in let Hj := fresh "Hj" in
         intros j pc Hj; specialize (I6 j pc Hj);
         destruct pc; unfold closer_ok in *; simpl in *; intuition congruence
       | unfold closer_ok in *; simpl in *; intuition congruence ]).

Lemma inv_closer i s s' :
  inv s → thread_step (closer i) s = Some s' → inv s'.
Proof.
  intros (I1 & I2 & I3 & I4 & I5 & I6). unfold thread_step.
  destruct (crashed s) eqn:Hcr; [done|].
  destruct (closers s !! i) as [pc|] eqn:Hi; [|done].
  pose proof (I6 i pc Hi) as Hpc.
  destruct pc; simpl.
  - (* the select of stop *)
    unfold exit_fired. run. intros [= <-].
    destruct (exit (z (shared s))) eqn:He; closer_done I6.
  - (* close(z.exit) *)
    unfold close_exit. run.
    destruct (exit (z (shared s))) eqn:He; simpl; intros [= <-];
      closer_done I6.
  - (* Wait returns *)
    unfold wait_Wait. run.
    destruct (wait (z (shared s)) =? 0) eqn:Hw; simpl; [|done].
    intros [= <-]. apply Nat.eqb_eq in Hw.
    assert (bg s = bg_exited) as Hbg.
    { rewrite Hw in I4. by destruct (bg s). }
    closer_done I6.
  - (* the locked section *)
    destruct Hpc as [He Hbg].
    unfold release_conn, call_Close. run.
    destruct (conn (z (shared s))) as [[]|] eqn:Hc; simpl.
    + rewrite I1 by done. simpl. intros [= <-].
      specialize (I1 eq_refl). rewrite I1 in I2.
      closer_done I6. by rewrite I2.
    + intros [= <-]. closer_done I6.
  - done.
Qed.

Lemma inv_step s s' : inv s → step s s' → inv s'.
Proof.
  intros Hinv ([c|i] & _ & Hstep).
  - by eapply inv_background.
  - by eapply inv_closer.
Qed.

Lemma inv_reachable s : reachable s → inv s.
Proof.
  intros (name & zkAddrs & timeout & st & n & Hrtc).
  eapply (rtc_ind_r inv); [apply inv_initial| |exact Hrtc].
  intros y y' _ Hstep IH. by eapply inv_step.
Qed.

(** A schedule: the goroutines that move, in order. *)
Fixpoint run_schedule (ts : list thread) (s : system) : option system :=
  match ts with
  | [] => Some s
  | t :: ts' =>
      match thread_step t s with
      | Some s' => run_schedule ts' s'
      | None => None
      end
  end.

Fixpoint schedule_ok (ts : list thread) (s : system) : Prop :=
  match ts with
  | [] => True
  | t :: ts' =>
      range_order_ok t s
      ∧ match thread_step t s with
        | Some s' => schedule_ok ts' s'
        | None => True
        end
  end.

Lemma run_schedule_reachable ts s s' :
  reachable s → schedule_ok ts s → run_schedule ts s = Some s' →
  reachable s'.
Proof.
  revert s. induction ts as [|t ts IH]; intros s Hr Hok; simpl.
  - by intros [= <-].
  - destruct Hok as [Ht Hok].
    destruct (thread_step t s) as [s1|] eqn:Hstep; [|done].
    apply IH; [|done].
    destruct Hr as (name & zkAddrs & timeout & st & n & Hrtc).
    exists name, zkAddrs, timeout, st, n.
    eapply rtc_r; [done|]. by exists t.
Qed.

Lemma reachable_initial name zkAddrs timeout st n :
  reachable (initial name zkAddrs timeout st n).
Proof. by exists name, zkAddrs, timeout, st, n. Qed.


End Client.

Arguments Ret {_ A} a w.
Arguments Panics {_ A} p.
Arguments Blocks {_ A}.

(** ** An instance of package zk

    The constants have the values that go-zookeeper gives them. The store
    is a set of node paths; creating a path of [denied] fails with the
    no-auth error, and listing a path of [no_stat] returns a nil stat.
    The nodes of [ephemeral] were created with the ephemeral flag: they
    go when the session ends. *)

Record test_store := {
  nodes : list string;
  denied : list string;
  no_stat : list string;
  ephemeral : list string;
}.

Definition ErrNoAuth : zk_error := ErrZk (-102).

Definition test_Create (p : string) (data : list byte) (flags : Z) (acl : ACL)
    (st : test_store) : (string * option zk_error) * test_store :=
  if bool_decide (p ∈ denied st) then (("", Some ErrNoAuth), st)
  else if bool_decide (p ∈ nodes st) then (("", Some ErrNodeExists), st)
  else ((p, None),
        {| nodes := nodes st ++ [p]; denied := denied st; no_stat := no_stat st;
           ephemeral := if Z.testbit flags 0 then ephemeral st ++ [p]
                        else ephemeral st |}).

Definition test_Delete (p : string) (version : Z) (st : test_store)
  : option zk_error * test_store :=
  if bool_decide (p ∈ nodes st)
  then (None, {| nodes := filter (fun q => q ≠ p) (nodes st);
                 denied := denied st; no_stat := no_stat st;
                 ephemeral := filter (fun q => q ≠ p) (ephemeral st) |})
  else (Some ErrNoNode, st).

Definition test_Close (st : test_store) : test_store :=
  {| nodes := filter (fun q => q ∉ ephemeral st) (nodes st);
     denied := denied st; no_stat := no_stat st; ephemeral := [] |}.

(** The name of [q] under [p], when [q] is a child of [p]. *)
Definition child_name (p q : string) : option string :=
  if Go.HasPrefix q (p +:+ "/") then
    let r := String.substring (String.length p + 1)
               (String.length q - (String.length p + 1)) q in
    if String.eqb r "" || occurs "/" r then None else Some r
  else None.

Definition test_children (p : string) (st : test_store) : list string :=
  omap (child_name p) (nodes st).

Definition test_Children (p : string) (st : test_store)
  : (list string * option unit * option zk_error) * test_store :=
  if bool_decide (p ∈ nodes st) then
    ((test_children p st,
      if bool_decide (p ∈ no_stat st) then None else Some tt, None), st)
  else (([], None, Some ErrNoNode), st).

Definition test_ChildrenW (p : string) (st : test_store)
  : (list string * option unit * option watch * option zk_error) * test_store :=
  let '((c, s, e), st') := test_Children p st in
  ((c, s, match e with None => Some 0 | Some _ => None end, e), st').

Definition test_ExistsW (p : string) (st : test_store)
  : (bool * option unit * option watch * option zk_error) * test_store :=
  ((bool_decide (p ∈ nodes st), Some tt, Some 0, None), st).

Lemma go_zookeeper_cases_distinct : NoDup [0; 3; 4; 1; 100; 101]%Z.
Proof.
  apply (bool_decide_unpack _). vm_compute. exact I.
Qed.

Global Instance go_zookeeper : ZkPackage := {|
  StateDisconnected := 0;
  StateConnecting := 1;
  StateConnected := 100;
  StateHasSession := 101;
  EventNodeDataChanged := 3;
  EventNodeChildrenChanged := 4;
  switch_cases_distinct := go_zookeeper_cases_distinct;
  FlagEphemeral := 1;
  FlagSequence := 2;
  PermAll := 31;
  Stat := unit;
  Store := test_store;
  conn_Create := test_Create;
  conn_Delete := test_Delete;
  conn_Children := test_Children;
  conn_ChildrenW := test_ChildrenW;
  conn_ExistsW := test_ExistsW;
  conn_Close := test_Close;
|}.

Definition h1 : handle := chan_at 1.
Definition h2 : handle := chan_at 2.
Definition h3 : handle := chan_at 3.

Definition store0 : test_store :=
  {| nodes := ["/a"; "/a/b"; "/e"; "/ns"]; denied := []; no_stat := ["/ns"];
     ephemeral := [] |}.

(** A client just made by [newZookeeperClient]. *)
Definition w_new : world := new_world "demo" ["127.0.0.1:2181"] 3 store0.

(** A client whose connection is nil, as after [Close]. *)
Definition w_closed : world :=
  {| z := {| name := "demo"; zkAddrs := ["127.0.0.1:2181"]; conn := None;
             timeout := 3; exit := true; wait := 0; eventRegistry := ∅ |};
     store := store0; session_closed := true; trace := [ExitClose; ConnClose] |}.

Example Create_abc :
  ∃ w, Create "/a/b/c" w_new = Ret None w
       ∧ trace w = [CallCreate "/a" [] 0 (WorldACL 31);
                    CallCreate "/a/b" [] 0 (WorldACL 31);
                    CallCreate "/a/b/c" [] 0 (WorldACL 31)]
       ∧ nodes (store w) = ["/a"; "/a/b"; "/e"; "/ns"; "/a/b/c"].
Proof. eexists. split; [vm_compute; reflexivity|]. split; reflexivity. Qed.

(** *** Watches *)

(** Two handles on [/a] and one on [/a/b]. *)
Definition watched : gmap string (list handle) :=
  <["/a/b" := [h3]]> (<["/a" := [h1; h2]]> ∅).

Definition w_watch : world :=
  {| z := set_eventRegistry watched
            (newZookeeperClient "demo" ["127.0.0.1:2181"] 3);
     store := store0; session_closed := false; trace := [] |}.

Example registerEvent_in_order :
  perform_all [op_registerEvent "/a" h1; op_registerEvent "/a" h2;
               op_registerEvent "/a/b" h3] w_new
  = Ret tt w_watch.
Proof. vm_compute. reflexivity. Qed.

(** A node-data-changed event at [path]. *)
Definition changed (path : string) : Event :=
  {| Type_ := 3; Server := "127.0.0.1:2181"; Path := path; State := 3;
     Err := None |}.

(** The session event that reports the connected state. *)
Definition connected (path : string) : Event :=
  {| Type_ := -1; Server := "127.0.0.1:2181"; Path := path; State := 100;
     Err := None |}.

Example fan_out_below_event :
  ∃ w, handle_event ["/a/b"; "/a"] 0 (changed "/a") w_watch
       = Ret (next_iteration, 3%Z) w
       ∧ trace w = [Notify h3; Notify h1; Notify h2].
Proof. eexists. split; [vm_compute; reflexivity|reflexivity]. Qed.

(** C1 fails as stated: with two handles on [/a] and one on [/a/b], both
    paths being prefixes of [/a/b/c], an event at [/a/b/c] notifies
    nobody, in either order of the range. *)
Lemma dispatch_skips_paths_above_event :
  is_prefix_of "/a" "/a/b/c" ∧ is_prefix_of "/a/b" "/a/b/c"
  ∧ eventRegistry (z w_watch) !! "/a" = Some [h1; h2]
  ∧ eventRegistry (z w_watch) !! "/a/b" = Some [h3]
  ∧ handle_event ["/a"; "/a/b"] 0 (changed "/a/b/c") w_watch
    = Ret (next_iteration, 3%Z) w_watch
  ∧ handle_event ["/a/b"; "/a"] 0 (changed "/a/b/c") w_watch
    = Ret (next_iteration, 3%Z) w_watch.
Proof.
  split; [by exists "/b/c"|]. split; [by exists "/c"|].
  repeat split; vm_compute; reflexivity.
Qed.

Lemma dispatch_to_paths_below_event_witness :
  (State (changed "/a") = EventNodeDataChanged
   ∨ State (changed "/a") = EventNodeChildrenChanged)
  ∧ ["/a/b"; "/a"] ≡ₚ keys (eventRegistry (z w_watch))
  ∧ ∃ w' sent,
      handle_event ["/a/b"; "/a"] 0 (changed "/a") w_watch
      = Ret (next_iteration, State (changed "/a")) w'
      ∧ trace w' = trace w_watch ++ (Notify <$> sent)
      ∧ ∃ l1 l2, sent = l1 ++ [h1; h2] ++ l2.
Proof.
  assert (State (changed "/a") = EventNodeDataChanged
          ∨ State (changed "/a") = EventNodeChildrenChanged) as Hs
    by (left; reflexivity).
  assert (["/a/b"; "/a"] ≡ₚ keys (eventRegistry (z w_watch))) as Hord
    by (vm_compute; reflexivity).
  split; [exact Hs|]. split; [exact Hord|].
  destruct (dispatch_to_paths_below_event w_watch ["/a/b"; "/a"] 0
              (changed "/a") Hs Hord)
    as (w' & sent & Hrun & _ & Htrace & Hall & _).
  exists w', sent. split; [exact Hrun|]. split; [exact Htrace|].
  apply (Hall "/a" [h1; h2]); [vm_compute; reflexivity|by exists ""].
Defined.

(** C2 fails as stated: the recorded state is 3 (a node-data-changed
    event was handled before), which is neither Connecting nor
    Disconnected; the event reports Connected at [/a], where [h1] and
    [h2] are registered; the handler sends nothing and keeps 3 as the
    recorded state. *)
Theorem reconnect_notifies_nobody :
  eventRegistry (z w_watch) !! Path (connected "/a") = Some [h1; h2]
  ∧ 3%Z ≠ StateConnecting ∧ 3%Z ≠ StateDisconnected
  ∧ handle_event ["/a/b"; "/a"] 3 (connected "/a") w_watch
    = Ret (next_iteration, 3%Z) w_watch.
Proof. repeat split; try done; vm_compute; reflexivity. Qed.

Lemma reconnect_skipped_when_state_differs_witness :
  State (connected "/a") = StateConnected
  ∧ 3%Z ≠ StateConnecting ∧ 3%Z ≠ StateDisconnected
  ∧ ∃ w', handle_event ["/a/b"; "/a"] 3 (connected "/a") w_watch
          = Ret (next_iteration, 3%Z) w'
          ∧ trace w' = trace w_watch.
Proof.
  split; [reflexivity|]. split; [done|]. split; [done|].
  destruct (reconnect_skipped_when_state_differs w_watch ["/a/b"; "/a"] 3
              (connected "/a") (or_intror (or_introl eq_refl))
              ltac:(done) ltac:(done)) as (w' & Hrun & Htrace & _).
  exists w'. split; [exact Hrun|exact Htrace].
Defined.

(** *** Shutdown *)

Lemma stop_idempotent_witness :
  exit (z w_new) = false
  ∧ ∃ w', calls stop 3 w_new = Ret [false; true; true] w'
          ∧ exit (z w') = true
          ∧ trace w' = trace w_new ++ [ExitClose].
Proof.
  split; [reflexivity|]. apply (stop_idempotent w_new 2). reflexivity.
Defined.

(** The background goroutine receives a Disconnected event and runs to
    its end; then a first caller of [Close] runs to its end; a second
    caller has not started yet. *)
Definition disconnected : Event :=
  {| Type_ := -1; Server := "127.0.0.1:2181"; Path := ""; State := 0;
     Err := None |}.

Definition demo_schedule : list thread :=
  [background (take_event [] disconnected);  (* the event is received *)
   background take_exit;                     (* the select of z.stop() *)
   background take_exit;                     (* close(z.exit) *)
   background take_exit;                     (* the locked section *)
   background take_exit;                     (* the deferred Done *)
   closer 0; closer 0; closer 0].

Definition s_start : system := initial "demo" ["127.0.0.1:2181"] 3 store0 2.

Definition s_demo : system := default s_start (run_schedule demo_schedule s_start).

Example demo_run :
  trace (shared s_demo) = [ExitClose; ConnClose]
  ∧ conn (z (shared s_demo)) = None
  ∧ bg s_demo = bg_exited
  ∧ closers s_demo = [close_returned; close_called]
  ∧ crashed s_demo = None.
Proof. repeat split; vm_compute; reflexivity. Qed.




(** *** Node operations *)

(** C6 fails as stated: with a nil connection [Create] of a path without
    slash returns nil, not the no-connection error. *)
Lemma Create_without_conn_returns_nil :
  conn (z w_closed) = None
  ∧ Create "" w_closed = Ret None w_closed
  ∧ Create "services" w_closed = Ret None w_closed.
Proof. repeat split; vm_compute; reflexivity. Qed.

Lemma node_operations_without_conn_witness :
  conn (z w_closed) = None
  ∧ Create "/services" w_closed
    = Ret (Some (Annotated ZK_CLIENT_CONN_NIL_ERR "zk.Create(path:/services)"))
          w_closed
  ∧ Delete "/services" w_closed
    = Ret (Some (Annotated ZK_CLIENT_CONN_NIL_ERR "Delete(basePath:/services)"))
          w_closed
  ∧ existW "/services" w_closed
    = Ret (None, Some (Annotated ZK_CLIENT_CONN_NIL_ERR
                         "zk.ExistsW(path:/services)")) w_closed.
Proof.
  split; [reflexivity|].
  destruct (node_operations_without_conn w_closed "/services" "n" [] eq_refl)
    as (HCreate & _ & HDelete & _ & _ & _ & _ & HexistW).
  split; [exact (HCreate eq_refl)|]. split; [exact HDelete|exact HexistW].
Defined.

Example getChildren_lists :
  ∃ w, getChildren "/a" w_new = Ret (["b"], None) w.
Proof. eexists. vm_compute. reflexivity. Qed.

Lemma no_children_ambiguity_witness :
  conn (z w_new) = Some session
  ∧ (∃ w', getChildren "/missing" w_new
           = Ret ([], Some (none_children "/missing")) w')
  ∧ (∃ w', getChildren "/ns" w_new = Ret ([], Some (none_children "/ns")) w')
  ∧ (∃ w', getChildren "/e" w_new = Ret ([], Some (none_children "/e")) w')
  ∧ (∃ w', getChildrenW "/e" w_new
           = Ret ([], None, Some (none_children "/e")) w')
  ∧ ["b"] ≠ [].
Proof.
  split; [reflexivity|].
  split.
  { apply (proj1 (no_children_ambiguity w_new "/missing" eq_refl)
             [] None (Some ErrNoNode) store0); [reflexivity|by left]. }
  split.
  { apply (proj1 (no_children_ambiguity w_new "/ns" eq_refl)
             [] None None store0); [reflexivity|right; left; by split]. }
  split.
  { apply (proj1 (no_children_ambiguity w_new "/e" eq_refl)
             [] (Some tt) None store0); [reflexivity|right; right; by split]. }
  split.
  { apply (proj1 (proj2 (no_children_ambiguity w_new "/e" eq_refl))
             [] (Some tt) (Some 0) None store0);
      [reflexivity|right; right; by split]. }
  destruct (getChildren_lists) as [w Hw].
  exact (proj1 (proj2 (proj2 (no_children_ambiguity w_new "/a" eq_refl)))
           ["b"] w Hw).
Defined.

(** *** Unregistering *)

Definition with_registry (r : gmap string (list handle)) : world :=
  {| z := set_eventRegistry r (newZookeeperClient "demo" ["127.0.0.1:2181"] 3);
     store := store0; session_closed := false; trace := [] |}.

(** The same handle registered twice on [/p], then another one. *)
Definition w_twice : world := with_registry {["/p" := [h1; h1; h2]]}.

(** C8 fails as stated: after [unregisterEvent("/p", h1)] the handle is
    still in the list of [/p], and a change at [/p] notifies it. *)
Lemma unregisterEvent_leaves_duplicate :
  ∃ w' w'',
    unregisterEvent "/p" h1 w_twice = Ret tt w'
    ∧ eventRegistry (z w') !! "/p" = Some [h1; h2]
    ∧ handle_event ["/p"] 0 (changed "/p") w' = Ret (next_iteration, 3%Z) w''
    ∧ trace w'' = [Notify h1; Notify h2].
Proof.
  eexists _, _. split; [vm_compute; reflexivity|].
  split; [vm_compute; reflexivity|].
  split; [vm_compute; reflexivity|reflexivity].
Qed.

(** The loop has no [break]: on [h1; h1] the second match slices out of
    range, and on [h1; h1; h1; h2] two handles are removed. *)
Example unregisterEvent_panics :
  unregisterEvent "/p" h1 (with_registry {["/p" := [h1; h1]]})
  = Panics slice_bounds_out_of_range.
Proof. vm_compute. reflexivity. Qed.

Example unregisterEvent_removes_two :
  ∃ w', unregisterEvent "/p" h1 (with_registry {["/p" := [h1; h1; h1; h2]]})
        = Ret tt w'
        ∧ eventRegistry (z w') !! "/p" = Some [h1; h2].
Proof. eexists. split; vm_compute; reflexivity. Qed.

Lemma unregisterEvent_removes_single_handle_witness :
  "/a" ≠ "" ∧ eventRegistry (z w_watch) !! "/a" = Some [h1; h2]
  ∧ times h1 [h1; h2] ≤ 1
  ∧ ∃ w', unregisterEvent "/a" h1 w_watch = Ret tt w'
          ∧ eventRegistry (z w') !! "/a" = Some [h2]
          ∧ h1 ∉ remove_first h1 [h1; h2].
Proof.
  assert (eventRegistry (z w_watch) !! "/a" = Some [h1; h2]) as Ha
    by (vm_compute; reflexivity).
  assert (times h1 [h1; h2] ≤ 1) as Ht by (vm_compute; lia).
  split; [done|]. split; [exact Ha|]. split; [exact Ht|].
  destruct (proj2 (unregisterEvent_removes_single_handle w_watch "/a" h1)
              [h1; h2] ltac:(done) Ha Ht)
    as (w' & Hrun & _ & Hreg & Hgone & _).
  exists w'. split; [exact Hrun|]. split; [|exact Hgone].
  rewrite Hreg. vm_compute. reflexivity.
Defined.

Definition demo_operations : list operation :=
  [op_registerEvent "/a" h1; op_registerEvent "" h2;
   op_registerEvent "/a" nil_handle; op_registerEvent "/b" h2;
   op_handle_event ["/a"; "/b"] 0 (changed "/");
   op_unregisterEvent "/a" h1; op_Create "/a/b/c";
   op_handle_event ["/b"] 3 disconnected; op_stop; op_Delete "/a/b/c"].

Definition w_after : world :=
  match perform_all demo_operations w_new with
  | Ret _ w => w
  | _ => w_new
  end.

Example demo_operations_result :
  map_to_list (eventRegistry (z w_after)) = [("/b", [h2])]
  ∧ trace w_after
    = [Notify h1; Notify h2; CallCreate "/a" [] 0 (WorldACL 31);
       CallCreate "/a/b" [] 0 (WorldACL 31);
       CallCreate "/a/b/c" [] 0 (WorldACL 31); ExitClose; ConnClose].
Proof. split; vm_compute; reflexivity. Qed.

Lemma registry_never_maps_to_empty_witness :
  perform_all demo_operations w_new = Ret tt w_after
  ∧ registry_ok (eventRegistry (z w_after)).
Proof.
  assert (perform_all demo_operations w_new = Ret tt w_after) as Hrun
    by (vm_compute; reflexivity).
  split; [exact Hrun|].
  exact (registry_never_maps_to_empty "demo" ["127.0.0.1:2181"] 3 store0
           demo_operations w_after Hrun).
Defined.

(** *** Creating paths *)

Lemma test_reply p st :
  reply p st
  = if bool_decide (p ∈ denied st) then Some ErrNoAuth
    else if bool_decide (p ∈ nodes st) then Some ErrNodeExists else None.
Proof.
  unfold reply. simpl. unfold test_Create. by repeat case_bool_decide.
Qed.

Lemma test_after_create p st :
  after_create p st
  = if bool_decide (p ∈ denied st) then st
    else if bool_decide (p ∈ nodes st) then st
    else {| nodes := nodes st ++ [p]; denied := denied st;
            no_stat := no_stat st; ephemeral := ephemeral st |}.
Proof.
  unfold after_create. simpl. unfold test_Create. by repeat case_bool_decide.
Qed.

(** The store of the instance keeps its nodes. *)
Lemma test_store_keeps_nodes : keeps_nodes.
Proof.
  intros p st. unfold node_present. split.
  - rewrite !test_reply, test_after_create.
    repeat case_bool_decide; simpl; intros [?|?]; try done;
      repeat case_bool_decide; try done; set_solver.
  - intros q. rewrite !test_reply, test_after_create.
    repeat case_bool_decide; simpl; try done;
      repeat case_bool_decide; try done; set_solver.
Qed.

Definition live (st : test_store) : world :=
  new_world "demo" ["127.0.0.1:2181"] 3 st.

Definition refuses (p : string) : test_store :=
  {| nodes := []; denied := [p]; no_stat := []; ephemeral := [] |}.

(** C5 fails as stated: the error that [Create] returns is the same
    whether the store refused the level [/x] or the level [/x/y], so it
    does not name the level that failed; and on such a store a second
    call fails like the first. *)
Lemma Create_error_hides_failing_level :
  ∃ w1 w2 w3,
    Create "/x/y" (live (refuses "/x"))
    = Ret (Some (Annotated (ZkError ErrNoAuth) "zk.Create(path:/x/y)")) w1
    ∧ trace w1 = [CallCreate "/x" [] 0 (WorldACL 31)]
    ∧ Create "/x/y" (live (refuses "/x/y"))
      = Ret (Some (Annotated (ZkError ErrNoAuth) "zk.Create(path:/x/y)")) w2
    ∧ trace w2 = [CallCreate "/x" [] 0 (WorldACL 31);
                  CallCreate "/x/y" [] 0 (WorldACL 31)]
    ∧ Create "/x/y" w1
      = Ret (Some (Annotated (ZkError ErrNoAuth) "zk.Create(path:/x/y)")) w3.
Proof.
  eexists _, _, _. split; [vm_compute; reflexivity|].
  split; [reflexivity|]. split; [vm_compute; reflexivity|].
  split; [reflexivity|]. vm_compute. reflexivity.
Qed.

Example Create_twice :
  ∃ w1 w2,
    Create "/a/b/c" w_new = Ret None w1
    ∧ Create "/a/b/c" w1 = Ret None w2
    ∧ nodes (store w2) = nodes (store w1)
    ∧ trace w2 = trace w1 ++ [CallCreate "/a" [] 0 (WorldACL 31);
                              CallCreate "/a/b" [] 0 (WorldACL 31);
                              CallCreate "/a/b/c" [] 0 (WorldACL 31)].
Proof.
  eexists _, _. split; [vm_compute; reflexivity|].
  split; [vm_compute; reflexivity|]. split; reflexivity.
Qed.

Lemma Create_level_by_level_witness :
  conn (z w_new) = Some session
  ∧ Forall plain ["a"; "b"; "c"]
  ∧ ∃ w' w'',
      Create "/a/b/c" w_new = Ret None w'
      ∧ trace w' = trace w_new
                   ++ (create_persistent <$> ["/a"; "/a/b"; "/a/b/c"])
      ∧ Create "/a/b/c" w' = Ret None w''.
Proof.
  assert (Forall plain ["a"; "b"; "c"]) as Hplain.
  { repeat (apply Forall_cons_2; [by repeat split|]). apply Forall_nil_2. }
  split; [reflexivity|]. split; [exact Hplain|].
  destruct (Create_level_by_level w_new "/a/b/c" eq_refl)
    as (attempted & fatal & w' & Hrun & _ & Htrace & Hlevels & _ & Hall & _
        & Hpaths & Htwice).
  assert (fatal = None) as ->.
  { vm_compute in Hlevels. by injection Hlevels as _ <- _. }
  destruct (Htwice test_store_keeps_nodes eq_refl) as [w'' Hagain].
  exists w', w''. split; [exact Hrun|]. split; [|exact Hagain].
  rewrite Htrace, (Hall eq_refl).
  by rewrite (Hpaths "a" ["b"; "c"] eq_refl Hplain).
Defined.


(** * Further properties of the client *)

Section Further.
Context `{ZkPackage}.

Notation "'let*' x ':=' m 'in' k" := (bind m (fun x => k))
  (at level 10, x name, m at level 100, k at level 200).
Notation "m >> k" := (bind m (fun _ => k))
  (at level 100, k at level 200, right associativity).

Ltac exec := unfold bind, ret, get, modify, throw, block in *; simpl in *.

(** ** A fatal disconnection *)

(** The [conn] field points to a session that has not been closed. *)
Definition session_consistent (w : world) : Prop :=
  conn (z w) = Some session → session_closed w = false.

(** X1. On a Disconnected event the handler leaves the loop with the
    recorded state unchanged; afterwards [exit] is closed and [conn] is
    nil, the registry is as before, the only effects are the close of
    [exit] (when it was open) and the close of the session (when there
    was one), and the store is what the end of that session makes of it
    (it is as before when there was no session); from then on
    [zkConnValid] answers false and a node operation fails with the
    no-connection error, without a call on the store. *)
Theorem disconnect_tears_down (w : world) (ord : list string) (state : Z)
    (event : Event) (path : string) :
  State event = StateDisconnected →
  session_consistent w →
  ∃ w',
    handle_event ord state event w = Ret (break_LOOP, state) w'
    ∧ conn (z w') = None
    ∧ exit (z w') = true
    ∧ eventRegistry (z w') = eventRegistry (z w)
    ∧ store w' = match conn (z w) with
                 | Some _ => conn_Close (store w)
                 | None => store w
                 end
    ∧ trace w' = trace w
                 ++ (if exit (z w) then [] else [ExitClose])
                 ++ match conn (z w) with Some _ => [ConnClose] | None => [] end
    ∧ zkConnValid w' = Ret false w'
    ∧ Delete path w'
      = Ret (Some (Annotated ZK_CLIENT_CONN_NIL_ERR
                     ("Delete(basePath:" +:+ path +:+ ")"))) w'.
Proof.
  intros Hs Hc. unfold handle_event, session_consistent in *.
  rewrite Hs, Z.eqb_refl.
  unfold stop, exit_fired, close_exit, release_conn, call_Close,
    zkConnValid, Delete.
  destruct w as [[n a c t e wt r] st sc tr]; simpl in *.
  destruct e, c as [[]|]; simpl in *; rewrite ?Hc by done; simpl;
    (eexists; split; [reflexivity|]); simpl;
    rewrite ?app_nil_r; repeat split; try done; by rewrite <- ?app_assoc.
Qed.

(** ** Steps of the goroutines *)

(** What one step of a goroutine does to the shared world. *)
Inductive world_step : world → world → Prop :=
| ws_send w l : world_step w (sent_to l w)
| ws_exit w :
    exit (z w) = false →
    world_step w (emit ExitClose (with_z (set_exit true) w))
| ws_release w :
    conn (z w) = Some session → session_closed w = false →
    world_step w (with_z (set_conn None)
                    (emit ConnClose
                       (set_session_closed
                          (set_store (conn_Close (store w)) w))))
| ws_done w : world_step w (with_z (fun c => set_wait (wait c - 1) c) w).

Lemma ws_same w : world_step w w.
Proof. rewrite <- (sent_to_nil w) at 2. constructor. Qed.

(** A step either changes the world in one of these ways, or stops the
    program with a panic of [close] and leaves the world as it is. *)
Lemma thread_step_effect t s s' :
  thread_step t s = Some s' →
  crashed s = None
  ∧ ((crashed s' = None ∧ world_step (shared s) (shared s'))
     ∨ (shared s' = shared s ∧ bg s' = bg s ∧ closers s' = closers s
        ∧ (crashed s' = Some close_of_closed_channel
           ∨ crashed s' = Some conn_closed_twice))).
Proof.
  unfold thread_step. destruct (crashed s) eqn:Hcr; [done|].
  intros Hstep. split; [done|]. destruct t as [c|i].
  - destruct (bg s) eqn:Hbg; simpl in Hstep.
    + destruct c as [|ord event]; simpl in Hstep.
      * unfold exit_fired in Hstep. exec.
        destruct (exit (z (shared s))); [|done].
        injection Hstep as <-. left. split; [done|apply ws_same].
      * destruct (State event =? StateDisconnected)%Z eqn:Hd.
        -- exec. injection Hstep as <-. left. split; [done|apply ws_same].
        -- destruct (handle_event_sends ord state event (shared s) Hd)
             as (r & l & Hrun).
           exec. rewrite Hrun in Hstep. injection Hstep as <-.
           left. split; [done|constructor].
    + unfold exit_fired in Hstep. exec. injection Hstep as <-.
      left. split; [done|apply ws_same].
    + unfold close_exit in Hstep. exec.
      destruct (exit (z (shared s))) eqn:He; simpl in Hstep;
        injection Hstep as <-.
      * right. simpl. auto.
      * left. split; [done|]. by constructor.
    + unfold release_conn, call_Close in Hstep. exec.
      destruct (conn (z (shared s))) as [[]|] eqn:Hc; simpl in Hstep.
      * destruct (session_closed (shared s)) eqn:Hsc; simpl in Hstep;
          injection Hstep as <-.
        -- right. simpl. auto.
        -- left. split; [done|]. by constructor.
      * injection Hstep as <-. left. split; [done|apply ws_same].
    + unfold wait_Done in Hstep. exec. injection Hstep as <-.
      left. split; [done|constructor].
    + done.
  - destruct (closers s !! i) as [pc|] eqn:Hi; [|done].
    destruct pc; simpl in Hstep.
    + unfold exit_fired in Hstep. exec. injection Hstep as <-.
      left. split; [done|apply ws_same].
    + unfold close_exit in Hstep. exec.
      destruct (exit (z (shared s))) eqn:He; simpl in Hstep;
        injection Hstep as <-.
      * right. simpl. auto.
      * left. split; [done|]. by constructor.
    + unfold wait_Wait in Hstep. exec.
      destruct (wait (z (shared s)) =? 0); [|done].
      injection Hstep as <-. left. split; [done|apply ws_same].
    + unfold release_conn, call_Close in Hstep. exec.
      destruct (conn (z (shared s))) as [[]|] eqn:Hc; simpl in Hstep.
      * destruct (session_closed (shared s)) eqn:Hsc; simpl in Hstep;
          injection Hstep as <-.
        -- right. simpl. auto.
        -- left. split; [done|]. by constructor.
      * injection Hstep as <-. left. split; [done|apply ws_same].
    + done.
Qed.

(** Induction over the reachable states. *)
Lemma reachable_ind (P : system → Prop) :
  (∀ name zkAddrs timeout st n, P (initial name zkAddrs timeout st n)) →
  (∀ t s s', reachable s → P s → range_order_ok t s →
             thread_step t s = Some s' → P s') →
  ∀ s, reachable s → P s.
Proof.
  intros Hinit Hstep s (name & zkAddrs & timeout & st & n & Hrtc).
  eapply (rtc_ind_r (fun s => reachable s ∧ P s)); [| |exact Hrtc].
  - split; [apply reachable_initial|apply Hinit].
  - intros y y' _ (t & Hok & Ht) [Hr Hp]. split.
    + destruct Hr as (name' & zkAddrs' & timeout' & st' & n' & Hrtc').
      exists name', zkAddrs', timeout', st', n'.
      eapply rtc_r; [done|]. by exists t.
    + by eapply Hstep.
Qed.

Lemma reachable_step t s s' :
  reachable s → range_order_ok t s → thread_step t s = Some s' → reachable s'.
Proof.
  intros (name & zkAddrs & timeout & st & n & Hrtc) Hok Ht.
  exists name, zkAddrs, timeout, st, n. eapply rtc_r; [done|]. by exists t.
Qed.

(** ** The state that the handler records *)

(** The states of the connection that the switch of [handleZkEvent]
    names. *)
Definition connection_state (v : Z) : Prop :=
  v = StateDisconnected ∨ v = StateConnecting ∨ v = StateConnected
  ∨ v = StateHasSession.

Lemma handle_event_state ord state event w r w' :
  (State event =? StateDisconnected)%Z = false →
  handle_event ord state event w = Ret r w' →
  r.2 = state ∨ (r.2 = State event ∧ ¬ connection_state (State event)).
Proof.
  intros Hd. unfold handle_event. rewrite Hd.
  pose proof switch_cases_ne as (?&?&?&?&?&?&?&?&?&?&?).
  apply Z.eqb_neq in Hd.
  destruct (State event =? EventNodeDataChanged)%Z eqn:E1.
  { apply Z.eqb_eq in E1. simpl. exec. rewrite notify_range_spec.
    intros [= <- _]. right. split; [done|].
    unfold connection_state. intuition congruence. }
  destruct (State event =? EventNodeChildrenChanged)%Z eqn:E2.
  { apply Z.eqb_eq in E2. simpl. exec. rewrite notify_range_spec.
    intros [= <- _]. right. split; [done|].
    unfold connection_state. intuition congruence. }
  simpl.
  destruct (State event =? StateConnecting)%Z eqn:E3;
    [|destruct (State event =? StateConnected)%Z eqn:E4;
      [|destruct (State event =? StateHasSession)%Z eqn:E5]]; simpl;
    try (rewrite reconnect_guard_always; exec; intros [= <- _]; by left).
  exec. intros [= <- _]. right. split; [done|].
  apply Z.eqb_neq in E3, E4, E5. unfold connection_state. intuition congruence.
Qed.

(** X2. The state that the background goroutine has recorded is never
    one of Disconnected, Connecting, Connected and HasSession, unless it
    still is the zero value it starts with: the events of these states
    leave the loop or skip the assignment. *)
Theorem recorded_state_never_a_connection_state (s : system) (state : Z) :
  reachable s → bg s = bg_select state →
  state = 0%Z ∨ ¬ connection_state state.
Proof.
  intros Hr. revert state. revert s Hr.
  apply (reachable_ind
           (fun s => ∀ state, bg s = bg_select state →
                              state = 0%Z ∨ ¬ connection_state state));
    [intros name zkAddrs timeout st n state
    |intros t s s' Hr IH Hok Hstep state].
  { simpl. intros [= <-]. by left. }
  unfold thread_step in Hstep. destruct (crashed s); [done|].
  destruct t as [c|i].
  - destruct (bg s) as [st0| | | | |] eqn:Hbg; simpl in Hstep.
    + destruct c as [|ord event]; simpl in Hstep.
      * unfold exit_fired in Hstep. exec.
        destruct (exit (z (shared s))); [|done]. by injection Hstep as <-.
      * destruct (State event =? StateDisconnected)%Z eqn:Hd.
        -- exec. by injection Hstep as <-.
        -- exec.
           destruct (handle_event ord st0 event (shared s)) as [r w'| |] eqn:Hrun;
             [|injection Hstep as <-; simpl; rewrite ?Hbg; apply IH|done].
           injection Hstep as <-. simpl. intros [= <-].
           destruct (handle_event_state _ _ _ _ _ _ Hd Hrun) as [->|[-> Hn]];
             [by apply IH|by right].
    + unfold exit_fired in Hstep. exec. injection Hstep as <-. simpl.
      by destruct (exit (z (shared s))).
    + unfold close_exit in Hstep. exec.
      destruct (exit (z (shared s))); simpl in Hstep; injection Hstep as <-;
        simpl; by rewrite ?Hbg.
    + exec. destruct (release_conn (shared s)); simpl in Hstep;
        [|by injection Hstep as <-|done].
      by injection Hstep as <-.
    + unfold wait_Done in Hstep. exec. by injection Hstep as <-.
    + done.
  - destruct (closers s !! i) as [pc|]; [|done].
    destruct (close_step pc (shared s)); [| |done];
      injection Hstep as <-; simpl; apply IH.
Qed.

(** ** What [Close] and the panics leave behind *)

Lemma released_when_nil :
  ∀ s, reachable s →
       conn (z (shared s)) = None → session_closed (shared s) = true.
Proof.
  apply (reachable_ind
           (fun s => conn (z (shared s)) = None →
                     session_closed (shared s) = true));
    [done|intros t s s' Hr IH Hok Hstep].
  apply thread_step_effect in Hstep as [_ [[_ Hw]|(-> & _)]]; [|done].
  destruct Hw; simpl; try done.
Qed.

(** X3. Once a call of [Close] has returned, the session has been closed
    exactly once and [conn] is nil: the connection is neither leaked nor
    released twice, whichever goroutine released it. *)
Theorem close_returned_released_once (s : system) (i : nat) :
  reachable s → closers s !! i = Some close_returned →
  releases (trace (shared s)) = 1
  ∧ session_closed (shared s) = true
  ∧ conn (z (shared s)) = None
  ∧ exit (z (shared s)) = true.
Proof.
  intros Hr Hi.
  destruct (inv_reachable s Hr) as (_ & I2 & _ & _ & _ & I6).
  destruct (I6 i _ Hi) as (He & _ & Hc).
  pose proof (released_when_nil s Hr Hc) as Hsc.
  rewrite I2, Hsc. done.
Qed.

(** A session event that reports the disconnected state. *)
Definition disconnected_event : Event :=
  {| Type_ := -1; Server := ""; Path := ""; State := StateDisconnected;
     Err := None |}.

(** X5. [stop] is not safe against a concurrent [stop]: for every client
    with at least one caller of [Close], there is an interleaving in
    which that caller and the background goroutine, which handles a
    Disconnected event, both find [exit] open and both close it, and the
    program panics on the second close. *)
Theorem stop_race_reaches_panic (name : string) (zkAddrs : list string)
    (timeout : Z) (st : Store) (n : nat) :
  0 < n →
  ∃ s, rtc step (initial name zkAddrs timeout st n) s
       ∧ crashed s = Some close_of_closed_channel
       ∧ trace (shared s) = [ExitClose]
       ∧ bg s = bg_release
       ∧ closers s !! 0 = Some close_stop_close.
Proof.
  intros Hn. destruct n as [|n]; [lia|].
  eexists. split.
  - eapply rtc_l.
    { exists (closer 0). split; [done|]. reflexivity. }
    eapply rtc_l.
    { exists (background (take_event [] disconnected_event)). split.
      - simpl. unfold keys. by rewrite map_to_list_empty.
      - unfold thread_step. simpl. rewrite Z.eqb_refl. reflexivity. }
    eapply rtc_l.
    { exists (background take_exit). split; [done|]. reflexivity. }
    eapply rtc_l.
    { exists (background take_exit). split; [done|]. reflexivity. }
    eapply rtc_l.
    { exists (closer 0). split; [done|]. reflexivity. }
    apply rtc_refl.
  - simpl. repeat split; reflexivity.
Qed.

(** ** Registering and unregistering *)

Lemma registerEvent_run p h w :
  p ≠ "" → h ≠ nil_handle →
  registerEvent p h w
  = Ret tt (with_z (set_eventRegistry
              (<[p := default [] (eventRegistry (z w) !! p) ++ [h]]>
                 (eventRegistry (z w)))) w).
Proof.
  intros Hp Hh. unfold registerEvent.
  by rewrite !bool_decide_eq_false_2 by done.
Qed.

Lemma times_absent h a : h ∉ a → times h a = 0.
Proof.
  unfold times. induction a as [|e a IH]; [done|].
  intros Hn. apply not_elem_of_cons in Hn as [Hne Hn].
  rewrite filter_cons_False by congruence. by apply IH.
Qed.

Lemma with_registry_same w :
  with_z (set_eventRegistry (eventRegistry (z w))) w = w.
Proof. by destruct w as [[] ? ? ?]. Qed.

Lemma with_registry_eq r w :
  r = eventRegistry (z w) → with_z (set_eventRegistry r) w = w.
Proof. intros ->. apply with_registry_same. Qed.

Lemma with_registry_twice r1 r2 w :
  with_z (set_eventRegistry r2) (with_z (set_eventRegistry r1) w)
  = with_z (set_eventRegistry r2) w.
Proof. by destruct w as [[] ? ? ?]. Qed.

(** X6. Registering a handle and unregistering it again gives back the
    client as it was, provided the path is not empty, the handle is not
    nil and not yet in the path's entry, and the entry, when there is
    one, is not empty. *)
Theorem register_unregister_round_trip (w : world) (p : string) (h : handle) :
  p ≠ "" → h ≠ nil_handle →
  (∀ a, eventRegistry (z w) !! p = Some a → a ≠ [] ∧ h ∉ a) →
  ∃ w1, registerEvent p h w = Ret tt w1
        ∧ eventRegistry (z w1) !! p
          = Some (default [] (eventRegistry (z w) !! p) ++ [h])
        ∧ unregisterEvent p h w1 = Ret tt w.
Proof.
  intros Hp Hh Hentry. eexists. split; [by apply registerEvent_run|].
  split; [simpl; by rewrite lookup_insert_eq|].
  set (a := default [] (eventRegistry (z w) !! p)).
  assert (h ∉ a) as Ha.
  { unfold a. destruct (eventRegistry (z w) !! p) as [a0|] eqn:E; simpl.
    - by apply Hentry.
    - apply not_elem_of_nil. }
  rewrite (unregisterEvent_at_most_once p h (a ++ [h])); [|done| |].
  - rewrite (remove_first_middle h a []) by done. rewrite app_nil_r.
    simpl. rewrite with_registry_twice. f_equal.
    apply with_registry_eq.
    unfold a. destruct (eventRegistry (z w) !! p) as [a0|] eqn:E; simpl.
    + destruct (Hentry a0 eq_refl) as [Hne _].
      rewrite decide_False by done.
      rewrite insert_insert_eq. by apply insert_id.
    + rewrite delete_insert_eq. by apply delete_id.
  - simpl. by rewrite lookup_insert_eq.
  - unfold times. rewrite filter_app, length_app.
    fold (times h a). rewrite times_absent by done.
    rewrite filter_cons_True by done. simpl. lia.
Qed.

(** X7. A handle registered under a path is notified by the next change
    event whose path is a prefix of that path, whatever the order of the
    range. *)
Theorem registered_handle_is_notified (w : world) (p : string) (h : handle)
    (ord : list string) (state : Z) (event : Event) :
  p ≠ "" → h ≠ nil_handle →
  State event = EventNodeDataChanged
  ∨ State event = EventNodeChildrenChanged →
  is_prefix_of (Path event) p →
  ∃ w1, registerEvent p h w = Ret tt w1
        ∧ (ord ≡ₚ keys (eventRegistry (z w1)) →
           ∃ w2 sent,
             handle_event ord state event w1
             = Ret (next_iteration, State event) w2
             ∧ trace w2 = trace w ++ (Notify <$> sent)
             ∧ h ∈ sent).
Proof.
  intros Hp Hh Hs Hpre. eexists. split; [by apply registerEvent_run|].
  intros Hord. eexists _, _. split; [by apply node_changed_event|].
  split; [done|]. unfold notified. apply list_elem_of_bind. exists p. split.
  - apply HasPrefix_spec in Hpre. rewrite Hpre. simpl.
    rewrite lookup_insert_eq. simpl. apply elem_of_app. right. by left.
  - rewrite Hord. unfold keys. apply list_elem_of_fmap.
    eexists (p, _). split; [done|]. apply elem_of_map_to_list. simpl.
    by rewrite lookup_insert_eq.
Qed.

(** X8. [registerEvent] and [unregisterEvent] on a path touch neither
    the entry of any other path nor the connection, the [exit] channel,
    the wait counter, the store or the trace, whenever they return. *)
Theorem registry_updates_are_local (w w' : world) (p q : string) (h : handle) :
  registerEvent p h w = Ret tt w' ∨ unregisterEvent p h w = Ret tt w' →
  (q ≠ p → eventRegistry (z w') !! q = eventRegistry (z w) !! q)
  ∧ conn (z w') = conn (z w) ∧ exit (z w') = exit (z w)
  ∧ wait (z w') = wait (z w) ∧ store w' = store w
  ∧ session_closed w' = session_closed w ∧ trace w' = trace w.
Proof.
  intros [Hrun|Hrun].
  - unfold registerEvent in Hrun.
    destruct (bool_decide (p = "") || bool_decide (h = nil_handle)); exec;
      injection Hrun as <-; simpl; repeat split; try done.
    intros Hq. by rewrite lookup_insert_ne.
  - unfold unregisterEvent in Hrun.
    destruct (bool_decide (p = "")); [exec; by injection Hrun as <-|].
    unfold bind at 1 in Hrun. unfold get at 1 in Hrun.
    destruct (eventRegistry (z w) !! p) as [a0|];
      [|exec; by injection Hrun as <-].
    unfold bind at 1 in Hrun.
    destruct (unregister_range h _ _ w) as [a' w1| |] eqn:Hloop; [|done|done].
    apply unregister_range_world in Hloop as ->.
    destruct (length (take (len a') (arr a')) =? 0); exec;
      injection Hrun as <-; simpl; repeat split; try done; intros Hq.
    + by rewrite lookup_delete_ne.
    + by rewrite lookup_insert_ne.
Qed.

(** *** The removal loop on an entry that holds the handle twice *)

(** A removal inside the loop keeps the length of the backing array and
    the cells from the last one of the slice on. *)
Lemma remove_at_shape i a w :
  i + 1 ≤ len a → len a ≤ length (arr a) →
  ∃ a', remove_at i a w = Ret a' w
        ∧ length (arr a') = length (arr a)
        ∧ len a' = len a - 1
        ∧ ∀ j, len a - 1 ≤ j → arr a' !! j = arr a !! j.
Proof.
  intros Hi Hlen. unfold remove_at. rewrite decide_True by done.
  eexists. split; [reflexivity|]. simpl.
  assert (length (take i (arr a)) = i) as L1 by (rewrite length_take; lia).
  assert (length (take (len a - (i + 1)) (drop (i + 1) (arr a)))
          = len a - (i + 1)) as L2
    by (rewrite length_take, length_drop; lia).
  split; [|split; [done|]].
  - rewrite !length_app, L1, L2, length_drop. lia.
  - intros j Hj.
    rewrite lookup_app_r by lia. rewrite L1.
    rewrite lookup_app_r by lia. rewrite L2.
    rewrite lookup_drop. f_equal. lia.
Qed.

Lemma unregister_range_before h l1 rest idx a w :
  h ∉ l1 → arr a = l1 ++ rest → (∀ i, i ∈ idx → i < length l1) →
  unregister_range h idx a w = Ret a w.
Proof.
  intros Hn Ha. induction idx as [|i idx IH]; intros Hidx; simpl; [done|].
  assert (i < length l1) as Hi by (apply Hidx; left).
  rewrite Ha, lookup_app_l by done.
  destruct (l1 !! i) as [e|] eqn:He.
  - rewrite decide_False.
    + apply IH. intros j Hj. apply Hidx. by right.
    + intros ->. apply Hn. by eapply list_elem_of_lookup_2.
  - apply lookup_ge_None in He. lia.
Qed.

(** Once a removal has shortened the slice, the loop cannot get past the
    last cell of the backing array when that cell holds the handle. *)
Lemma unregister_range_panics h n w :
  ∀ k i0 a,
    0 < k → i0 + k = n → length (arr a) = n →
    arr a !! (n - 1) = Some h → len a < n →
    unregister_range h (seq i0 k) a w = Panics slice_bounds_out_of_range.
Proof.
  induction k as [|k IH]; intros i0 a Hk Hn Hlen Hlast Hshort; [lia|].
  simpl.
  destruct (arr a !! i0) as [e|] eqn:He;
    [|apply lookup_ge_None in He; lia].
  destruct (decide (e = h)) as [->|Hne].
  - destruct (decide (i0 + 1 ≤ len a)) as [Hin|Hout].
    + destruct (remove_at_shape i0 a w Hin ltac:(lia))
        as (a' & Hrm & Hlen' & Hl' & Hkeep).
      unfold bind. rewrite Hrm.
      apply IH; [lia|lia|congruence| |lia].
      rewrite Hkeep by lia. done.
    + unfold bind, remove_at. by rewrite decide_False.
  - assert (i0 ≠ n - 1) as Hi by (intros ->; congruence).
    apply IH; [lia|lia|done|done|done].
Qed.

(** X9. [unregisterEvent] panics with a slice out of range when the
    handle is the last one of the path's entry and is in the entry
    before that as well: the loop goes on after the first removal, meets
    the handle again in the last cell and slices past the shortened
    list. *)
Theorem unregisterEvent_panics_on_trailing_duplicate (w : world) (p : string)
    (h : handle) (l : list handle) :
  p ≠ "" → eventRegistry (z w) !! p = Some (l ++ [h]) → h ∈ l →
  unregisterEvent p h w = Panics slice_bounds_out_of_range.
Proof.
  intros Hp Hreg Hin. unfold unregisterEvent.
  rewrite bool_decide_eq_false_2 by done.
  unfold bind at 1. unfold get at 1. rewrite Hreg.
  apply list_elem_of_split_l in Hin as (l1 & l2 & -> & Hl1).
  assert (∃ l3, (l1 ++ h :: l2) ++ [h] = l1 ++ h :: l3
                ∧ 0 < length l3
                ∧ (l1 ++ h :: l3) !! (length l1 + length l3) = Some h)
    as (l3 & -> & Hl3 & Hlast).
  { exists (l2 ++ [h]). split; [by rewrite <- app_assoc|].
    rewrite length_app. simpl. split; [lia|].
    rewrite lookup_app_r by lia.
    replace (length l1 + (length l2 + 1) - length l1) with (S (length l2))
      by lia.
    simpl. rewrite lookup_app_r by lia.
    by replace (length l2 - length l2) with 0 by lia. }
  assert (length (l1 ++ h :: l3) = length l1 + (1 + length l3)) as Hlen
    by (rewrite length_app; simpl; lia).
  unfold bind at 1. rewrite Hlen at 1.
  rewrite seq_app, unregister_range_app. unfold bind at 1.
  rewrite (unregister_range_before h l1 (h :: l3));
    [|done|done|intros i Hi; apply elem_of_seq in Hi; lia].
  simpl seq. simpl unregister_range. simpl arr.
  rewrite list_lookup_middle by done.
  rewrite decide_True by done.
  destruct (remove_at_shape (length l1)
              {| arr := l1 ++ h :: l3; len := length (l1 ++ h :: l3) |} w)
    as (a' & Hrm & Hlen' & Hl' & Hkeep); [simpl; lia|simpl; lia|].
  simpl in Hlen', Hl', Hkeep.
  unfold bind at 1. rewrite Hrm.
  rewrite (unregister_range_panics h (length (l1 ++ h :: l3)) w);
    [done|lia|lia|done| |lia].
  rewrite Hkeep by lia. rewrite <- Hlast. f_equal. lia.
Qed.

(** ** Node operations on a live connection *)

(** The world after one call on the session that left the store [st]. *)
Definition called (e : effect) (st : Store) (w : world) : world :=
  emit e (set_store st w).

Ltac live Hc := exec; repeat (rewrite Hc; simpl).

Lemma Delete_live p w :
  conn (z w) = Some session →
  Delete p w
  = Ret (jerrors_Annotatef (lift_zk (conn_Delete p (-1) (store w)).1)
           ("Delete(basePath:" +:+ p +:+ ")"))
        (called (CallDelete p (-1)) (conn_Delete p (-1) (store w)).2 w).
Proof. intros Hc. unfold Delete, call_Delete. by live Hc. Qed.

Lemma RegisterTemp_live basePath node w :
  conn (z w) = Some session →
  let zkPath := Go.path_Join [basePath] +:+ "/" +:+ node in
  let r := conn_Create zkPath [] FlagEphemeral (WorldACL PermAll) (store w) in
  RegisterTemp basePath node w
  = Ret match r.1.2 with
        | None => (r.1.1, None)
        | Some e =>
            ("", Some (Annotated (ZkError e)
                         ("zk.Create(path:" +:+ basePath
                          +:+ ", zk.FlagEphemeral)")))
        end
        (called (CallCreate zkPath [] FlagEphemeral (WorldACL PermAll)) r.2 w).
Proof.
  intros Hc zkPath r. unfold RegisterTemp, call_Create. live Hc.
  fold zkPath. fold r. by destruct (r.1.2).
Qed.

Lemma RegisterTempSeq_live basePath data w :
  conn (z w) = Some session →
  let zkPath := Go.path_Join [basePath] +:+ "/" in
  let flags := Z.lor FlagEphemeral FlagSequence in
  let r := conn_Create zkPath data flags (WorldACL PermAll) (store w) in
  RegisterTempSeq basePath data w
  = Ret match r.1.2 with
        | None => (r.1.1, None)
        | Some e =>
            ("", Some (Annotated (ZkError e)
                         ("zk.Create(path:" +:+ basePath
                          +:+ ", zk.FlagEphemeral|zk.FlagSequence)")))
        end
        (called (CallCreate zkPath data flags (WorldACL PermAll)) r.2 w).
Proof.
  intros Hc zkPath flags r. unfold RegisterTempSeq, call_Create. live Hc.
  fold zkPath. fold flags. fold r. by destruct (r.1.2).
Qed.

Lemma getChildren_live path w :
  conn (z w) = Some session →
  let r := conn_Children path (store w) in
  getChildren path w
  = Ret match r.1.2 with
        | Some e =>
            if decide (e = ErrNoNode) then ([], Some (none_children path))
            else ([], Some (Annotated (ZkError e)
                              ("zk.Children(path:" +:+ path +:+ ")")))
        | None =>
            match r.1.1.2, r.1.1.1 with
            | Some _, _ :: _ => (r.1.1.1, None)
            | _, _ => ([], Some (none_children path))
            end
        end
        (called (CallChildren path) r.2 w).
Proof.
  intros Hc r. unfold getChildren, call_Children. live Hc. fold r.
  destruct r as [[[c st] [e|]] s']; simpl.
  - destruct (decide (e = ErrNoNode)) as [->|Hne]; simpl; [done|].
    rewrite decide_False by congruence. done.
  - by destruct st, c.
Qed.

Lemma getChildrenW_live path w :
  conn (z w) = Some session →
  let r := conn_ChildrenW path (store w) in
  getChildrenW path w
  = Ret match r.1.2 with
        | Some e =>
            if decide (e = ErrNoNode) then ([], None, Some (none_children path))
            else ([], None, Some (Annotated (ZkError e)
                                    ("zk.ChildrenW(path:" +:+ path +:+ ")")))
        | None =>
            match r.1.1.1.2, r.1.1.1.1 with
            | Some _, _ :: _ => (r.1.1.1.1, r.1.1.2, None)
            | _, _ => ([], None, Some (none_children path))
            end
        end
        (called (CallChildrenW path) r.2 w).
Proof.
  intros Hc r. unfold getChildrenW, call_ChildrenW. live Hc. fold r.
  destruct r as [[[[c st] wt] [e|]] s']; simpl.
  - destruct (decide (e = ErrNoNode)) as [->|Hne]; simpl; [done|].
    rewrite decide_False by congruence. done.
  - by destruct st, c.
Qed.

Lemma existW_live zkPath w :
  conn (z w) = Some session →
  let r := conn_ExistsW zkPath (store w) in
  existW zkPath w
  = Ret match r.1.2 with
        | Some e =>
            (None, Some (Annotated (ZkError e)
                           ("zk.ExistsW(path:" +:+ zkPath +:+ ")")))
        | None =>
            if r.1.1.1.1 then (r.1.1.2, None)
            else (None, Some (Errorf ("zkClient{" +:+ name (z w)
                                      +:+ "} App zk path{" +:+ zkPath
                                      +:+ "} does not exist.")))
        end
        (called (CallExistsW zkPath) r.2 w).
Proof.
  intros Hc r. unfold existW, call_ExistsW. live Hc. fold r.
  destruct r as [[[[ex st] wt] [e|]] s']; simpl; [done|]. by destruct ex.
Qed.

Definition is_node_operation (o : operation) : bool :=
  match o with
  | op_Create _ | op_Delete _ | op_RegisterTemp _ _ | op_RegisterTempSeq _ _
  | op_getChildren _ | op_getChildrenW _ | op_existW _ => true
  | _ => false
  end.

Lemma Create_nil_conn p w :
  conn (z w) = None → ∃ r, Create p w = Ret r w.
Proof.
  intros Hc. unfold Create.
  destruct (tail (Go.Split p "/")) as [|str strs]; [by eexists|].
  eexists. by apply Create_range_no_conn.
Qed.

(** X10. A node operation always returns (it neither panics nor blocks),
    leaves the fields of the client and the session as they are, and
    adds nothing to the trace but calls on the session: none when [conn]
    is nil (the store is then untouched), at most one for every
    operation but [Create], which makes at most one per level. *)
Theorem node_operations_only_call_store (w : world) (o : operation) :
  is_node_operation o = true →
  ∃ w' t,
    perform o w = Ret tt w'
    ∧ z w' = z w
    ∧ session_closed w' = session_closed w
    ∧ trace w' = trace w ++ t
    ∧ Forall (fun e => is_store_call e = true) t
    ∧ (conn (z w) = None → t = [] ∧ store w' = store w)
    ∧ match o with
      | op_Create p => length t ≤ length (create_paths p)
      | _ => length t ≤ 1
      end.
Proof.
  intros Ho. destruct (conn (z w)) as [[]|] eqn:Hc.
  - destruct o; try discriminate; unfold perform, bind.
    + unfold Create. rewrite Create_range_levels by done.
      fold (create_paths basePath).
      destruct (create_levels (create_paths basePath) (store w))
        as [[a f] st'] eqn:Hrun.
      apply create_levels_prefix in Hrun as (Hpre & _).
      eexists _, _. split; [reflexivity|]. simpl.
      repeat split; try done.
      * apply Forall_fmap. by apply Forall_true.
      * rewrite length_fmap. by apply prefix_length.
    + rewrite Delete_live by done.
      eexists _, [_]. simpl. repeat split; try done. by repeat constructor.
    + rewrite RegisterTemp_live by done.
      eexists _, [_]. simpl. repeat split; try done. by repeat constructor.
    + rewrite RegisterTempSeq_live by done.
      eexists _, [_]. simpl. repeat split; try done. by repeat constructor.
    + rewrite getChildren_live by done.
      eexists _, [_]. simpl. repeat split; try done. by repeat constructor.
    + rewrite getChildrenW_live by done.
      eexists _, [_]. simpl. repeat split; try done. by repeat constructor.
    + rewrite existW_live by done.
      eexists _, [_]. simpl. repeat split; try done. by repeat constructor.
  - assert (∃ w', perform o w = Ret tt w' ∧ w' = w) as (w' & Hrun & ->).
    { destruct o; try discriminate; unfold perform, bind.
      - destruct (Create_nil_conn basePath w Hc) as [r ->]. by eexists.
      - unfold Delete. live Hc. by eexists.
      - unfold RegisterTemp. live Hc. by eexists.
      - unfold RegisterTempSeq. live Hc. by eexists.
      - unfold getChildren. live Hc. by eexists.
      - unfold getChildrenW. live Hc. by eexists.
      - unfold existW. live Hc. by eexists. }
    exists w, []. rewrite app_nil_r. repeat split; try done.
    destruct o; simpl; lia.
Qed.

(** An error that is not the no-connection error, under its annotations. *)
Definition not_no_connection (e : option error) : Prop :=
  ∀ x, e = Some x → jerrors_Cause x ≠ ZK_CLIENT_CONN_NIL_ERR.

(** X11. With a live connection no node operation returns the
    no-connection error: whatever the store answers, the error returned,
    if any, has another cause. *)
Theorem no_connection_error_needs_nil_conn (w : world) (p node : string)
    (data : list byte) :
  conn (z w) = Some session →
  (∀ r w', Create p w = Ret r w' → not_no_connection r)
  ∧ (∀ r w', Delete p w = Ret r w' → not_no_connection r)
  ∧ (∀ r w', RegisterTemp p node w = Ret r w' → not_no_connection r.2)
  ∧ (∀ r w', RegisterTempSeq p data w = Ret r w' → not_no_connection r.2)
  ∧ (∀ r w', getChildren p w = Ret r w' → not_no_connection r.2)
  ∧ (∀ r w', getChildrenW p w = Ret r w' → not_no_connection r.2)
  ∧ (∀ r w', existW p w = Ret r w' → not_no_connection r.2).
Proof.
  intros Hc. unfold not_no_connection. repeat split; intros r w'.
  - unfold Create. rewrite Create_range_levels by done.
    destruct (create_levels _ _) as [[a f] st'].
    intros [= <- _] x. by destruct f; intros [= <-].
  - rewrite Delete_live by done. intros [= <- _] x.
    by destruct (conn_Delete p (-1) (store w)).1; intros [= <-].
  - rewrite RegisterTemp_live by done. intros [= <- _] x.
    by destruct (conn_Create _ _ _ _ _).1.2; intros [= <-].
  - rewrite RegisterTempSeq_live by done. intros [= <- _] x.
    by destruct (conn_Create _ _ _ _ _).1.2; intros [= <-].
  - rewrite getChildren_live by done. intros [= <- _] x.
    destruct (conn_Children p (store w)) as [[[c st] [e|]] s']; simpl.
    + by destruct (decide (e = ErrNoNode)); intros [= <-].
    + by destruct st, c; intros [= <-].
  - rewrite getChildrenW_live by done. intros [= <- _] x.
    destruct (conn_ChildrenW p (store w)) as [[[[c st] wt] [e|]] s']; simpl.
    + by destruct (decide (e = ErrNoNode)); intros [= <-].
    + by destruct st, c; intros [= <-].
  - rewrite existW_live by done. intros [= <- _] x.
    destruct (conn_ExistsW p (store w)) as [[[[ex st] wt] [e|]] s']; simpl.
    + by intros [= <-].
    + by destruct ex; intros [= <-].
Qed.

(** *** Cleaning of the base path *)

Lemma Split_empty_string sep : Go.Split "" sep = [""].
Proof. reflexivity. Qed.

(** [path.Join] of one clean absolute path gives it back, also when it
    is written with a slash at its end. *)
Lemma path_Join_clean_base segs :
  segs ≠ [] → Forall plain segs →
  Go.path_Join [abs_path segs] = abs_path segs
  ∧ Go.path_Join [abs_path segs +:+ "/"] = abs_path segs.
Proof.
  intros Hne Hp. split.
  - unfold Go.path_Join.
    change (abs_path segs =? "")%string with false. cbv iota.
    change (Go.Join [abs_path segs] "/") with (String "/" (Go.Join segs "/")).
    unfold Go.Clean. simpl Ascii.eqb. cbv iota.
    rewrite Split_sep_cons, Split_Join by done.
    simpl fold_left. change (Go.clean_elem true [] "") with (@nil string).
    rewrite clean_fold_plain by done.
    by rewrite app_nil_r, rev_involutive.
  - unfold Go.path_Join.
    change (abs_path segs +:+ "/" =? "")%string with false. cbv iota.
    change (Go.Join [abs_path segs +:+ "/"] "/")
      with (String "/" (Go.Join segs "/" +:+ String "/" "")).
    unfold Go.Clean. simpl Ascii.eqb. cbv iota.
    rewrite Split_sep_cons, Split_app, Split_Join, Split_empty_string by done.
    simpl fold_left. change (Go.clean_elem true [] "") with (@nil string).
    rewrite fold_left_app, (clean_fold_plain true segs) by done.
    simpl fold_left.
    change (Go.clean_elem true (rev segs ++ []) "") with (rev segs ++ []).
    by rewrite app_nil_r, rev_involutive.
Qed.

(** What an ephemeral registration returns for an answer of the store,
    the error taken without its annotation. *)
Definition registered (reply : string * option zk_error)
  : string * option error :=
  match reply.2 with
  | None => (reply.1, None)
  | Some e => ("", Some (ZkError e))
  end.

(** X12. [RegisterTemp] and [RegisterTempSeq] on a clean absolute base
    path, written with or without a slash at its end, make one call on
    the session: the creation of an ephemeral node [base/node] with
    empty content, respectively of an ephemeral sequential node under
    [base/] with the given content, both with the world ACL. They return
    the path that the store assigned and no error when the store
    created the node; in every other case, [ErrNodeExists] included,
    they return the empty path and the error of the store under an
    annotation. *)
Theorem ephemeral_registration (w : world) (segs : list string)
    (basePath node : string) (data : list byte) :
  conn (z w) = Some session →
  segs ≠ [] → Forall plain segs →
  basePath = abs_path segs ∨ basePath = abs_path segs +:+ "/" →
  (∃ res w',
      RegisterTemp basePath node w = Ret res w'
      ∧ trace w' = trace w
                   ++ [CallCreate (abs_path segs +:+ "/" +:+ node) []
                         FlagEphemeral (WorldACL PermAll)]
      ∧ (res.1, jerrors_Cause <$> res.2)
        = registered (conn_Create (abs_path segs +:+ "/" +:+ node) []
                        FlagEphemeral (WorldACL PermAll) (store w)).1)
  ∧ (∃ res w',
        RegisterTempSeq basePath data w = Ret res w'
        ∧ trace w' = trace w
                     ++ [CallCreate (abs_path segs +:+ "/") data
                           (Z.lor FlagEphemeral FlagSequence) (WorldACL PermAll)]
        ∧ (res.1, jerrors_Cause <$> res.2)
          = registered (conn_Create (abs_path segs +:+ "/") data
                          (Z.lor FlagEphemeral FlagSequence) (WorldACL PermAll)
                          (store w)).1).
Proof.
  intros Hc Hne Hp Hbase.
  assert (Go.path_Join [basePath] = abs_path segs) as Hjoin.
  { destruct (path_Join_clean_base segs Hne Hp) as [H1 H2].
    by destruct Hbase as [-> | ->]. }
  split.
  - rewrite RegisterTemp_live by done. rewrite Hjoin. cbv zeta.
    eexists _, _. split; [reflexivity|]. simpl. split; [done|].
    unfold registered. by destruct (conn_Create _ _ _ _ _).1.2.
  - rewrite RegisterTempSeq_live by done. rewrite Hjoin. cbv zeta.
    eexists _, _. split; [reflexivity|]. simpl. split; [done|].
    unfold registered. by destruct (conn_Create _ _ _ _ _).1.2.
Qed.

(** ** Reading the store *)

(** X13. With a live connection [getChildren] returns a list without
    error exactly when the store answered without error, with a stat
    and with at least one child, and the list is then the one of the
    store; the same holds for [getChildrenW], which then returns the
    watch of the store as well. *)
Theorem listing_succeeds_iff (w : world) (path : string)
    (children : list string) (wt : option watch) :
  conn (z w) = Some session →
  ((∃ w', getChildren path w = Ret (children, None) w')
   ↔ (∃ stat st', conn_Children path (store w)
                  = (children, Some stat, None, st') ∧ children ≠ []))
  ∧ ((∃ w', getChildrenW path w = Ret (children, wt, None) w')
     ↔ (∃ stat st', conn_ChildrenW path (store w)
                    = (children, Some stat, wt, None, st') ∧ children ≠ [])).
Proof.
  intros Hc. split; split.
  - intros [w' Hrun]. rewrite getChildren_live in Hrun by done.
    destruct (conn_Children path (store w)) as [[[c st] [e|]] s']; simpl in *.
    + by destruct (decide (e = ErrNoNode)).
    + destruct st as [stat|], c as [|x c]; try done.
      injection Hrun as <- _. by exists stat, s'.
  - intros (stat & st' & Hcall & Hne). rewrite getChildren_live by done.
    rewrite Hcall. simpl. destruct children; [done|]. by eexists.
  - intros [w' Hrun]. rewrite getChildrenW_live in Hrun by done.
    destruct (conn_ChildrenW path (store w)) as [[[[c st] wt'] [e|]] s'];
      simpl in *.
    + by destruct (decide (e = ErrNoNode)).
    + destruct st as [stat|], c as [|x c]; try done.
      injection Hrun as <- <- _. by exists stat, s'.
  - intros (stat & st' & Hcall & Hne). rewrite getChildrenW_live by done.
    rewrite Hcall. simpl. destruct children; [done|]. by eexists.
Qed.

(** X14. With a live connection [existW] returns a watch and no error
    exactly when the store answered without error that the node exists,
    and the watch is then the one of the store. When the store answers
    that the node does not exist, the watch that came with the answer is
    not handed to the caller, who gets an error instead. *)
Theorem existW_returns_watch_iff (w : world) (zkPath : string)
    (wt : option watch) :
  conn (z w) = Some session →
  ((∃ w', existW zkPath w = Ret (wt, None) w')
   ↔ (∃ stat st', conn_ExistsW zkPath (store w) = (true, stat, wt, None, st')))
  ∧ (∀ stat st', conn_ExistsW zkPath (store w) = (false, stat, wt, None, st') →
       ∃ msg w', existW zkPath w = Ret (None, Some (Errorf msg)) w'
                 ∧ trace w' = trace w ++ [CallExistsW zkPath]).
Proof.
  intros Hc. split; [split|].
  - intros [w' Hrun]. rewrite existW_live in Hrun by done.
    destruct (conn_ExistsW zkPath (store w)) as [[[[ex st] wt'] [e|]] s'];
      simpl in *; [done|].
    destruct ex; [|done]. injection Hrun as <- _. by exists st, s'.
  - intros (stat & st' & Hcall). rewrite existW_live by done.
    rewrite Hcall. simpl. by eexists.
  - intros stat st' Hcall. rewrite existW_live by done.
    rewrite Hcall. simpl. by eexists _, _.
Qed.

(** ** The levels that [Create] asks for *)

Lemma Clean_rooted s : is_prefix_of "/" (Go.Clean (String "/" s)).
Proof.
  unfold Go.Clean. simpl Ascii.eqb. cbv iota.
  set (out := rev _).
  change ("/" +:+ Go.Join out "/") with (String "/" (Go.Join out "/")).
  simpl. by exists (Go.Join out "/").
Qed.

Lemma path_Join_level_absolute tmpPath str :
  tmpPath = "" ∨ is_prefix_of "/" tmpPath →
  is_prefix_of "/" (Go.path_Join [tmpPath; "/"; str]).
Proof.
  intros [->|[t ->]].
  - change (Go.path_Join [""; "/"; str])
      with (Go.Clean (String "/" ("/" +:+ str))).
    apply Clean_rooted.
  - change (Go.path_Join ["/" +:+ t; "/"; str])
      with (Go.Clean (String "/" (t +:+ "/" +:+ "/" +:+ "/" +:+ str))).
    apply Clean_rooted.
Qed.

Lemma sub_paths_absolute tmpPath strs :
  tmpPath = "" ∨ is_prefix_of "/" tmpPath →
  Forall (is_prefix_of "/") (sub_paths tmpPath strs).
Proof.
  revert tmpPath. induction strs as [|str strs IH]; intros tmpPath Ht.
  - constructor.
  - rewrite sub_paths_cons.
    pose proof (path_Join_level_absolute tmpPath str Ht) as Habs.
    constructor; [done|]. apply IH. by right.
Qed.

(** X15. Whatever the argument, every path that [Create] asks the store
    to create is absolute: each call of a run with a live connection is
    the creation of a persistent node whose path begins with a slash. *)
Theorem Create_asks_for_absolute_paths (w : world) (basePath : string) :
  conn (z w) = Some session →
  ∃ res w' levels,
    Create basePath w = Ret res w'
    ∧ trace w' = trace w ++ (create_persistent <$> levels)
    ∧ Forall (is_prefix_of "/") levels.
Proof.
  intros Hc. unfold Create. rewrite Create_range_levels by done.
  fold (create_paths basePath).
  destruct (create_levels (create_paths basePath) (store w))
    as [[a f] st'] eqn:Hrun.
  apply create_levels_prefix in Hrun as ([rest Hpre] & _).
  eexists _, _, a. split; [reflexivity|]. split; [done|].
  pose proof (sub_paths_absolute "" (tail (Go.Split basePath "/"))
                (or_introl eq_refl)) as Hall.
  fold (create_paths basePath) in Hall. rewrite Hpre in Hall.
  by apply Forall_app in Hall as [Ha _].
Qed.

(** X16. [Create] drops the first element of the split path: what stands
    before the first slash does not matter. With a live connection,
    [Create] of [x/rest], [x] without slash, makes the calls of [Create]
    of [/rest], leaves the same store and fails or succeeds with it (the
    annotation alone names the path as it was given). *)
Theorem Create_ignores_text_before_first_slash (w : world) (x rest : string) :
  occurs "/" x = false →
  conn (z w) = Some session →
  create_paths (x +:+ "/" +:+ rest) = create_paths ("/" +:+ rest)
  ∧ ∃ res1 res2 w',
      Create (x +:+ "/" +:+ rest) w = Ret res1 w'
      ∧ Create ("/" +:+ rest) w = Ret res2 w'
      ∧ (res1 = None ↔ res2 = None)
      ∧ jerrors_Cause <$> res1 = jerrors_Cause <$> res2.
Proof.
  intros Hx Hc.
  assert (create_paths (x +:+ "/" +:+ rest) = create_paths ("/" +:+ rest))
    as Hpaths.
  { unfold create_paths.
    change (x +:+ "/" +:+ rest) with (x +:+ String "/" rest).
    change ("/" +:+ rest) with (String "/" rest).
    rewrite Split_app, Split_sep_cons, Split_no_sep by done. done. }
  split; [done|].
  unfold Create. rewrite !Create_range_levels by done.
  fold (create_paths (x +:+ "/" +:+ rest)). fold (create_paths ("/" +:+ rest)).
  rewrite Hpaths.
  destruct (create_levels (create_paths ("/" +:+ rest)) (store w))
    as [[a f] st'].
  eexists _, _, _. split; [reflexivity|]. split; [reflexivity|].
  unfold create_error. by destruct f.
Qed.

End Further.

(** ** The further properties on the instance *)

(** The background goroutine has handled a change at [/a]. *)
Definition s_changed : system :=
  default s_start
    (run_schedule [background (take_event [] (changed "/a"))] s_start).

Lemma disconnect_tears_down_witness :
  State disconnected = StateDisconnected
  ∧ session_consistent w_new
  ∧ ∃ w', handle_event [] 0 disconnected w_new = Ret (break_LOOP, 0%Z) w'
          ∧ conn (z w') = None
          ∧ exit (z w') = true
          ∧ trace w' = [ExitClose; ConnClose]
          ∧ store w' = conn_Close (store w_new)
          ∧ zkConnValid w' = Ret false w'
          ∧ Delete "/a" w'
            = Ret (Some (Annotated ZK_CLIENT_CONN_NIL_ERR
                           "Delete(basePath:/a)")) w'.
Proof.
  assert (session_consistent w_new) as Hc by (intros _; reflexivity).
  split; [reflexivity|]. split; [exact Hc|].
  destruct (disconnect_tears_down w_new [] 0 disconnected "/a" eq_refl Hc)
    as (w' & Hrun & Hconn & Hexit & _ & Hstore & Htrace & Hvalid & Hdelete).
  exists w'. repeat split; done.
Defined.

(** An ephemeral node goes with the session that the handler closes. *)
Example disconnect_ends_ephemeral_nodes :
  ∃ w1 w2,
    RegisterTemp "/a" "n" w_new = Ret ("/a/n", None) w1
    ∧ nodes (store w1) = ["/a"; "/a/b"; "/e"; "/ns"; "/a/n"]
    ∧ handle_event [] 0 disconnected w1 = Ret (break_LOOP, 0%Z) w2
    ∧ nodes (store w2) = ["/a"; "/a/b"; "/e"; "/ns"].
Proof.
  eexists _, _. split; [vm_compute; reflexivity|].
  split; [reflexivity|]. split; [vm_compute; reflexivity|reflexivity].
Qed.

Lemma recorded_state_never_a_connection_state_witness :
  reachable s_changed
  ∧ bg s_changed = bg_select 3
  ∧ (3%Z = 0%Z ∨ ¬ connection_state 3).
Proof.
  assert (reachable s_changed) as Hr.
  { apply (run_schedule_reachable
             [background (take_event [] (changed "/a"))] s_start).
    - apply reachable_initial.
    - vm_compute. repeat split; reflexivity.
    - vm_compute. reflexivity. }
  split; [exact Hr|]. split; [reflexivity|].
  exact (recorded_state_never_a_connection_state s_changed 3 Hr eq_refl).
Defined.

Lemma close_returned_released_once_witness :
  reachable s_demo
  ∧ closers s_demo !! 0 = Some close_returned
  ∧ releases (trace (shared s_demo)) = 1
  ∧ conn (z (shared s_demo)) = None.
Proof.
  assert (reachable s_demo) as Hr.
  { apply (run_schedule_reachable demo_schedule s_start).
    - apply reachable_initial.
    - vm_compute. repeat split; reflexivity.
    - vm_compute. reflexivity. }
  split; [exact Hr|]. split; [reflexivity|].
  destruct (close_returned_released_once s_demo 0 Hr eq_refl)
    as (Hone & _ & Hconn & _).
  split; [exact Hone|exact Hconn].
Defined.

Lemma stop_race_reaches_panic_witness :
  0 < 1
  ∧ ∃ s, rtc step (initial "demo" ["127.0.0.1:2181"] 3 store0 1) s
         ∧ crashed s = Some close_of_closed_channel
         ∧ trace (shared s) = [ExitClose].
Proof.
  split; [lia|].
  destruct (@stop_race_reaches_panic go_zookeeper "demo" ["127.0.0.1:2181"] 3
              store0 1 ltac:(lia))
    as (s & Hrun & Hcrash & Htrace & _).
  exists s. repeat split; done.
Defined.

Lemma register_unregister_round_trip_witness :
  "/a/b" ≠ "" ∧ h1 ≠ nil_handle
  ∧ eventRegistry (z w_watch) !! "/a/b" = Some [h3]
  ∧ (h1 ∉ [h3])
  ∧ ∃ w1, registerEvent "/a/b" h1 w_watch = Ret tt w1
          ∧ eventRegistry (z w1) !! "/a/b" = Some [h3; h1]
          ∧ unregisterEvent "/a/b" h1 w1 = Ret tt w_watch.
Proof.
  assert (eventRegistry (z w_watch) !! "/a/b" = Some [h3]) as Hl
    by (vm_compute; reflexivity).
  assert (h1 ∉ [h3]) as Hn.
  { intros Hin. apply list_elem_of_singleton in Hin. discriminate Hin. }
  split; [done|]. split; [done|]. split; [exact Hl|]. split; [exact Hn|].
  destruct (register_unregister_round_trip w_watch "/a/b" h1
              ltac:(done) ltac:(done)) as (w1 & Hreg & Hlook & Hback).
  { intros a Ha. rewrite Hl in Ha. injection Ha as <-. by split. }
  exists w1. split; [exact Hreg|]. split; [|exact Hback].
  rewrite Hlook, Hl. reflexivity.
Defined.

Lemma registered_handle_is_notified_witness :
  "/a/b" ≠ "" ∧ h1 ≠ nil_handle
  ∧ State (changed "/a") = EventNodeDataChanged
  ∧ is_prefix_of (Path (changed "/a")) "/a/b"
  ∧ ∃ w1 w2 sent,
      registerEvent "/a/b" h1 w_new = Ret tt w1
      ∧ handle_event ["/a/b"] 0 (changed "/a") w1
        = Ret (next_iteration, State (changed "/a")) w2
      ∧ trace w2 = trace w_new ++ (Notify <$> sent)
      ∧ h1 ∈ sent.
Proof.
  assert (is_prefix_of (Path (changed "/a")) "/a/b") as Hp by (by exists "/b").
  split; [done|]. split; [done|]. split; [reflexivity|]. split; [exact Hp|].
  destruct (registered_handle_is_notified w_new "/a/b" h1 ["/a/b"] 0
              (changed "/a") ltac:(done) ltac:(done)
              (or_introl eq_refl) Hp) as (w1 & Hreg & Hnotify).
  assert (["/a/b"] ≡ₚ keys (eventRegistry (z w1))) as Hord.
  { vm_compute in Hreg. injection Hreg as <-. vm_compute. reflexivity. }
  destruct (Hnotify Hord) as (w2 & sent & Hrun & Htrace & Hin).
  exists w1, w2, sent. repeat split; done.
Defined.

Lemma registry_updates_are_local_witness :
  registerEvent "/a/b" h1 w_watch
  = Ret tt (with_registry (<["/a/b" := [h3; h1]]> watched))
  ∧ "/a" ≠ "/a/b"
  ∧ eventRegistry (z (with_registry (<["/a/b" := [h3; h1]]> watched))) !! "/a"
    = eventRegistry (z w_watch) !! "/a"
  ∧ trace (with_registry (<["/a/b" := [h3; h1]]> watched)) = trace w_watch.
Proof.
  assert (registerEvent "/a/b" h1 w_watch
          = Ret tt (with_registry (<["/a/b" := [h3; h1]]> watched))) as Hreg
    by (vm_compute; reflexivity).
  split; [exact Hreg|]. split; [done|].
  destruct (registry_updates_are_local w_watch _ "/a/b" "/a" h1
              (or_introl Hreg)) as (Hlook & _ & _ & _ & _ & _ & Htrace).
  split; [apply Hlook; done|exact Htrace].
Defined.

Lemma unregisterEvent_panics_on_trailing_duplicate_witness :
  "/p" ≠ ""
  ∧ eventRegistry (z (with_registry {["/p" := [h2; h1; h1]]})) !! "/p"
    = Some ([h2; h1] ++ [h1])
  ∧ h1 ∈ [h2; h1]
  ∧ unregisterEvent "/p" h1 (with_registry {["/p" := [h2; h1; h1]]})
    = Panics slice_bounds_out_of_range.
Proof.
  assert (eventRegistry (z (with_registry {["/p" := [h2; h1; h1]]})) !! "/p"
          = Some ([h2; h1] ++ [h1])) as Hl by (vm_compute; reflexivity).
  assert (h1 ∈ [h2; h1]) as Hin by (right; left).
  split; [done|]. split; [exact Hl|]. split; [exact Hin|].
  exact (unregisterEvent_panics_on_trailing_duplicate _ "/p" h1 [h2; h1]
           ltac:(done) Hl Hin).
Defined.

Lemma node_operations_only_call_store_witness :
  is_node_operation (op_Create "/a/b/c") = true
  ∧ ∃ w' t,
      perform (op_Create "/a/b/c") w_new = Ret tt w'
      ∧ z w' = z w_new
      ∧ trace w' = trace w_new ++ t
      ∧ Forall (fun e => is_store_call e = true) t
      ∧ length t ≤ length (create_paths "/a/b/c").
Proof.
  split; [reflexivity|].
  destruct (node_operations_only_call_store w_new (op_Create "/a/b/c") eq_refl)
    as (w' & t & Hrun & Hz & _ & Htrace & Hcalls & _ & Hlen).
  exists w', t. repeat split; done.
Defined.

Lemma no_connection_error_needs_nil_conn_witness :
  conn (z w_new) = Some session
  ∧ ∃ w', Delete "/missing" w_new
          = Ret (Some (Annotated (ZkError ErrNoNode)
                         "Delete(basePath:/missing)")) w'
          ∧ not_no_connection
              (Some (Annotated (ZkError ErrNoNode) "Delete(basePath:/missing)")).
Proof.
  split; [reflexivity|].
  destruct (no_connection_error_needs_nil_conn w_new "/missing" "n" [] eq_refl)
    as (_ & HDelete & _).
  eexists. split; [vm_compute; reflexivity|].
  eapply HDelete. vm_compute. reflexivity.
Defined.

Lemma ephemeral_registration_witness :
  conn (z w_new) = Some session
  ∧ ["a"] ≠ [] ∧ Forall plain ["a"]
  ∧ "/a/" = abs_path ["a"] +:+ "/"
  ∧ (∃ res w', RegisterTemp "/a/" "n" w_new = Ret res w'
               ∧ trace w' = [CallCreate "/a/n" [] 1 (WorldACL 31)]
               ∧ res = ("/a/n", None))
  ∧ (∃ res w', RegisterTemp "/a/" "b" w_new = Ret res w'
               ∧ res.1 = ""
               ∧ jerrors_Cause <$> res.2 = Some (ZkError ErrNodeExists)).
Proof.
  assert (Forall plain ["a"]) as Hplain.
  { apply Forall_cons_2; [by repeat split|apply Forall_nil_2]. }
  split; [reflexivity|]. split; [done|]. split; [exact Hplain|].
  split; [reflexivity|].
  split.
  - destruct (ephemeral_registration w_new ["a"] "/a/" "n" [] eq_refl
                ltac:(done) Hplain (or_intror eq_refl))
      as [(res & w' & Hrun & Htrace & Hres) _].
    exists res, w'. split; [exact Hrun|]. split; [exact Htrace|].
    replace (registered _) with ("/a/n", @None error) in Hres
      by (vm_compute; reflexivity).
    destruct res as [p [e|]]; simpl in Hres; [discriminate Hres|].
    by injection Hres as ->.
  - destruct (ephemeral_registration w_new ["a"] "/a/" "b" [] eq_refl
                ltac:(done) Hplain (or_intror eq_refl))
      as [(res & w' & Hrun & _ & Hres) _].
    exists res, w'. split; [exact Hrun|].
    replace (registered _) with ("", Some (ZkError ErrNodeExists)) in Hres
      by (vm_compute; reflexivity).
    injection Hres as Hpath Hcause. by split.
Defined.

Lemma listing_succeeds_iff_witness :
  conn (z w_new) = Some session
  ∧ conn_Children "/a" (store w_new) = (["b"], Some tt, None, store0)
  ∧ ["b"] ≠ []
  ∧ ∃ w', getChildren "/a" w_new = Ret (["b"], None) w'.
Proof.
  split; [reflexivity|]. split; [reflexivity|]. split; [done|].
  apply (proj1 (listing_succeeds_iff w_new "/a" ["b"] None eq_refl)).
  exists tt, store0. by split.
Defined.

Lemma existW_returns_watch_iff_witness :
  conn (z w_new) = Some session
  ∧ conn_ExistsW "/a" (store w_new) = (true, Some tt, Some 0, None, store0)
  ∧ (∃ w', existW "/a" w_new = Ret (Some 0, None) w')
  ∧ conn_ExistsW "/missing" (store w_new)
    = (false, Some tt, Some 0, None, store0)
  ∧ ∃ msg w', existW "/missing" w_new = Ret (None, Some (Errorf msg)) w'
              ∧ trace w' = trace w_new ++ [CallExistsW "/missing"].
Proof.
  split; [reflexivity|]. split; [reflexivity|].
  split.
  - apply (proj2 (proj1 (existW_returns_watch_iff w_new "/a" (Some 0) eq_refl))).
    by exists (Some tt), store0.
  - split; [reflexivity|].
    apply (proj2 (existW_returns_watch_iff w_new "/missing" (Some 0) eq_refl)
             (Some tt) store0).
    reflexivity.
Defined.

Lemma Create_asks_for_absolute_paths_witness :
  conn (z w_new) = Some session
  ∧ ∃ res w' levels,
      Create "x/../y//z" w_new = Ret res w'
      ∧ trace w' = trace w_new ++ (create_persistent <$> levels)
      ∧ Forall (is_prefix_of "/") levels.
Proof.
  split; [reflexivity|].
  exact (Create_asks_for_absolute_paths w_new "x/../y//z" eq_refl).
Defined.

Lemma Create_ignores_text_before_first_slash_witness :
  occurs "/" "zk:" = false
  ∧ conn (z w_new) = Some session
  ∧ create_paths "zk:/a/b" = create_paths "/a/b"
  ∧ ∃ res1 res2 w',
      Create "zk:/a/b" w_new = Ret res1 w'
      ∧ Create "/a/b" w_new = Ret res2 w'
      ∧ jerrors_Cause <$> res1 = jerrors_Cause <$> res2.
Proof.
  split; [reflexivity|]. split; [reflexivity|].
  destruct (Create_ignores_text_before_first_slash w_new "zk:" "a/b"
              eq_refl eq_refl)
    as (Hpaths & res1 & res2 & w' & H1 & H2 & _ & Hcause).
  split; [exact Hpaths|]. exists res1, res2, w'. repeat split; done.
Defined.

(** * The header helpers of the SOFA RPC stream (pkg/stream/sofarpc/streamhelper.go)

    [encodeSterilize] prepares the headers of a message for the codec and
    [decodeSterilize] marks the headers of a decoded message for the
    proxy. Both work in place on the header map they are given. The
    constants of packages [types] and [sofarpc], [sofarpc.SofaPropertyHeader],
    [sofarpc.BuildSofaRespMsg] and [strconv.Atoi] are declared outside
    this file: they are the fields of a class. *)

Module Sofarpc.

(** A value of type [interface{}] as the helpers tell them apart: a
    [map[string]string], which is [None] when it is the nil map, or
    something else. *)
Inductive value (Opaque : Type) :=
| header_map (m : option (gmap string string))
| opaque (v : Opaque).
Arguments header_map {Opaque} m.
Arguments opaque {Opaque} v.

(** A call returns, or it panics on the assignment to an entry of the
    nil map. *)
Inductive outcome (A : Type) :=
| returns (a : A)
| assignment_to_entry_in_nil_map.
Arguments returns {A} a.
Arguments assignment_to_entry_in_nil_map {A}.

Class CodecPackage := {
  (** a value of the empty interface that is not a [map[string]string] *)
  Opaque : Type;
  InStream : Z;
  HeaderReqID : string;
  HeaderTimeout : string;
  SofaPropertyHeader : string -> string;
  HeaderStreamID : string;
  HeaderGlobalTimeout : string;
  HeaderTryTimeout : string;
  HeaderStatus : string;
  SuccessCode : Z;
  RouterUnavailableCode : Z;
  NoHealthUpstreamCode : Z;
  UpstreamOverFlowCode : Z;
  CodecExceptionCode : Z;
  DeserialExceptionCode : Z;
  TimeoutExceptionCode : Z;
  RESPONSE_STATUS_CLIENT_SEND_ERROR : Z;
  RESPONSE_STATUS_CODEC_EXCEPTION : Z;
  RESPONSE_STATUS_SERVER_DESERIAL_EXCEPTION : Z;
  RESPONSE_STATUS_TIMEOUT : Z;
  RESPONSE_STATUS_UNKNOWN : Z;
  (** [strconv.Atoi] with its error dropped *)
  Atoi : string -> Z;
  (** [sofarpc.BuildSofaRespMsg(headers, status)] on a map that is not
      nil: the map as the call leaves it, the message built, and whether
      the error returned is nil *)
  BuildSofaRespMsg : gmap string string -> Z ->
                     gmap string string * (value Opaque * bool);
}.

Section Helpers.
Context `{CodecPackage}.

(** The fields of [stream] that the helpers read. *)
Record stream := {
  direction : Z;
  requestId : string;
}.

(** The response status that the switch on the status code picks. *)
Definition response_status (statusCode : Z) : Z :=
  if (statusCode =? RouterUnavailableCode)%Z
     || (statusCode =? NoHealthUpstreamCode)%Z
     || (statusCode =? UpstreamOverFlowCode)%Z
  then RESPONSE_STATUS_CLIENT_SEND_ERROR
  else if (statusCode =? CodecExceptionCode)%Z
  then RESPONSE_STATUS_CODEC_EXCEPTION
  else if (statusCode =? DeserialExceptionCode)%Z
  then RESPONSE_STATUS_SERVER_DESERIAL_EXCEPTION
  else if (statusCode =? TimeoutExceptionCode)%Z
  then RESPONSE_STATUS_TIMEOUT
  else RESPONSE_STATUS_UNKNOWN.

(** The header map after the first part of [encodeSterilize]: the
    request id is set on an incoming stream, then the proxy headers are
    deleted. *)
Definition strip_proxy_headers (s : stream) (m : gmap string string)
  : gmap string string :=
  let m := if (direction s =? InStream)%Z
           then <[SofaPropertyHeader HeaderReqID := requestId s]> m
           else m in
  let m := delete HeaderStreamID m in
  let m := delete HeaderGlobalTimeout m in
  delete HeaderTryTimeout m.

(** [encodeSterilize]: the result, which for a header map is the map of
    the caller itself, changed in place. The variable [headers] takes the
    message that [BuildSofaRespMsg] built and is then assigned the header
    map, on every path through the type assertion. On the nil map the
    deletions do nothing and no status is found. *)
Definition encodeSterilize (s : stream) (headers : value Opaque)
  : outcome (value Opaque) :=
  match headers with
  | header_map (Some headerMaps) =>
      let headerMaps := strip_proxy_headers s headerMaps in
      let '(headerMaps, headers) :=
        match headerMaps !! HeaderStatus with
        | Some status =>
            let headerMaps := delete HeaderStatus headerMaps in
            let statusCode := Atoi status in
            if negb (statusCode =? SuccessCode)%Z then
              let '(headerMaps, (respHeaders, err_nil)) :=
                BuildSofaRespMsg headerMaps (response_status statusCode) in
              if err_nil then (headerMaps, respHeaders)
              else (headerMaps, headers)
            else (headerMaps, headers)
        | None => (headerMaps, headers)
        end in
      let headers := header_map (Some headerMaps) in
      returns headers
  | header_map None =>
      if (direction s =? InStream)%Z then assignment_to_entry_in_nil_map
      else returns (header_map None)
  | opaque _ => returns headers
  end.

(** [decodeSterilize]: the header map after the call. *)
Definition decodeSterilize (streamId : string)
  (headers : option (gmap string string)) : outcome (gmap string string) :=
  match headers with
  | None => assignment_to_entry_in_nil_map
  | Some headers =>
      let headers := <[HeaderStreamID := streamId]> headers in
      match headers !! SofaPropertyHeader HeaderTimeout with
      | Some v => returns (<[HeaderTryTimeout := v]> headers)
      | None => returns headers
      end
  end.

(** The proxy headers, which the codec must not see. *)
Definition proxy_headers : list string :=
  [HeaderStreamID; HeaderGlobalTimeout; HeaderTryTimeout].

(** The status header is absent or holds the success code once the proxy
    headers are stripped: [encodeSterilize] builds no message. *)
Definition no_failure_status (s : stream) (m : gmap string string) : Prop :=
  forall status, strip_proxy_headers s m !! HeaderStatus = Some status ->
                 Atoi status = SuccessCode.

Lemma strip_proxy_headers_lookup (s : stream) (m : gmap string string)
    (k : string) :
  strip_proxy_headers s m !! k =
    if bool_decide (k ∈ proxy_headers) then None
    else if (direction s =? InStream)%Z
         then (<[SofaPropertyHeader HeaderReqID := requestId s]> m) !! k
         else m !! k.
Proof.
  unfold strip_proxy_headers, proxy_headers.
  case_bool_decide as Hk.
  - rewrite !elem_of_cons in Hk.
    destruct Hk as [-> | [-> | [-> | Hk]]].
    + destruct (decide (HeaderTryTimeout = HeaderStreamID)) as [e | n].
      * rewrite <- e. apply lookup_delete_eq.
      * rewrite lookup_delete_ne by congruence.
        destruct (decide (HeaderGlobalTimeout = HeaderStreamID)) as [e | n'].
        -- rewrite <- e. apply lookup_delete_eq.
        -- rewrite lookup_delete_ne by congruence. apply lookup_delete_eq.
    + destruct (decide (HeaderTryTimeout = HeaderGlobalTimeout)) as [e | n].
      * rewrite <- e. apply lookup_delete_eq.
      * rewrite lookup_delete_ne by congruence. apply lookup_delete_eq.
    + apply lookup_delete_eq.
    + by apply elem_of_nil in Hk.
  - rewrite !elem_of_cons in Hk.
    rewrite !lookup_delete_ne by (intros E; subst k; tauto).
    by destruct (direction s =? InStream)%Z.
Qed.

Lemma decodeSterilize_lookup (streamId : string) (m : gmap string string)
    (k : string) :
  k ∉ proxy_headers ->
  exists m', decodeSterilize streamId (Some m) = returns m' /\ m' !! k = m !! k.
Proof.
  unfold proxy_headers. rewrite !elem_of_cons. intros Hk.
  unfold decodeSterilize.
  destruct (<[HeaderStreamID:=streamId]> m !! SofaPropertyHeader HeaderTimeout).
  - eexists; split; [done |].
    rewrite !lookup_insert_ne by (intros E; subst k; tauto). done.
  - eexists; split; [done |].
    rewrite !lookup_insert_ne by (intros E; subst k; tauto). done.
Qed.

Lemma strip_after_decode (s : stream) (streamId : string)
    (m m' : gmap string string) :
  decodeSterilize streamId (Some m) = returns m' ->
  strip_proxy_headers s m' = strip_proxy_headers s m.
Proof.
  intros Hd. apply map_eq. intros k.
  rewrite !strip_proxy_headers_lookup.
  case_bool_decide as Hk; [done |].
  destruct (decodeSterilize_lookup streamId m k Hk) as (m2 & E & Hl).
  rewrite Hd in E. injection E as <-.
  destruct (direction s =? InStream)%Z; [| done].
  destruct (decide (SofaPropertyHeader HeaderReqID = k)) as [-> | n].
  - by rewrite !lookup_insert_eq.
  - by rewrite !lookup_insert_ne.
Qed.

(** X17. The message that [encodeSterilize] builds for a failure status is
    never what it returns: given a header map that is not nil, it returns
    a header map, whatever the status header holds and whether or not
    [BuildSofaRespMsg] succeeds; when a message was built, the map
    returned is the caller's map as [BuildSofaRespMsg] left it. *)
Theorem encodeSterilize_returns_header_map (s : stream)
    (m : gmap string string) :
  exists m',
    encodeSterilize s (header_map (Some m)) = returns (header_map (Some m'))
    /\ forall status,
         strip_proxy_headers s m !! HeaderStatus = Some status ->
         Atoi status <> SuccessCode ->
         m' = (BuildSofaRespMsg (delete HeaderStatus (strip_proxy_headers s m))
                 (response_status (Atoi status))).1.
Proof.
  unfold encodeSterilize. cbv zeta.
  destruct (strip_proxy_headers s m !! HeaderStatus) as [status |];
    [| by eexists].
  destruct (Z.eqb_spec (Atoi status) SuccessCode) as [e | n]; simpl.
  - eexists; split; [done |]. intros ? [= <-] Hn. by destruct Hn.
  - destruct (BuildSofaRespMsg _ _) as [m' [r [|]]] eqn:Hb;
      (eexists; split; [done |]; intros ? [= <-] _; by rewrite Hb).
Qed.

(** X18. When the status header is absent or holds the success code,
    [encodeSterilize] returns the caller's map without the stream id, the
    two timeouts of the proxy and the status; on an incoming stream the
    request id header holds the stream's request id, unless it is one of
    the removed headers; every other header is as it was. *)
Theorem encodeSterilize_strips_proxy_headers (s : stream)
    (m : gmap string string) :
  no_failure_status s m ->
  exists m',
    encodeSterilize s (header_map (Some m)) = returns (header_map (Some m'))
    /\ (forall k, k ∈ HeaderStatus :: proxy_headers -> m' !! k = None)
    /\ (forall k, k ∉ HeaderStatus :: proxy_headers ->
          m' !! k =
            if (direction s =? InStream)%Z
               && bool_decide (k = SofaPropertyHeader HeaderReqID)
            then Some (requestId s) else m !! k).
Proof.
  intros Hok. unfold encodeSterilize.
  assert (Hother : forall k, k ∉ HeaderStatus :: proxy_headers ->
            strip_proxy_headers s m !! k =
              if (direction s =? InStream)%Z
                 && bool_decide (k = SofaPropertyHeader HeaderReqID)
              then Some (requestId s) else m !! k).
  { intros k Hk. rewrite strip_proxy_headers_lookup.
    rewrite not_elem_of_cons in Hk. destruct Hk as [_ Hk].
    rewrite bool_decide_eq_false_2 by done.
    destruct (direction s =? InStream)%Z; simpl; [| done].
    case_bool_decide as Hr.
    - subst k. by rewrite lookup_insert_eq.
    - by rewrite lookup_insert_ne. }
  assert (Hproxy : forall k, k ∈ proxy_headers ->
            strip_proxy_headers s m !! k = None).
  { intros k Hk. rewrite strip_proxy_headers_lookup.
    by rewrite bool_decide_eq_true_2. }
  destruct (strip_proxy_headers s m !! HeaderStatus) as [status |] eqn:Hs.
  - rewrite (Hok status Hs), Z.eqb_refl. simpl.
    eexists; split; [done |]. split.
    + intros k Hk. apply elem_of_cons in Hk. destruct Hk as [-> | Hk].
      * apply lookup_delete_eq.
      * destruct (decide (HeaderStatus = k)) as [e | n].
        -- rewrite <- e. apply lookup_delete_eq.
        -- rewrite lookup_delete_ne by done. by apply Hproxy.
    + intros k Hk. rewrite lookup_delete_ne.
      * by apply Hother.
      * intros E. apply Hk. rewrite E. by left.
  - eexists; split; [done |]. split.
    + intros k Hk. apply elem_of_cons in Hk. destruct Hk as [-> | Hk].
      * done.
      * by apply Hproxy.
    + intros k Hk. by apply Hother.
Qed.

(** X19. What [decodeSterilize] adds to a header map, [encodeSterilize]
    takes away again: encoding the decoded map gives the result of encoding the
    map itself, for every stream and every stream id. *)
Theorem encode_after_decode (s : stream) (streamId : string)
    (m : gmap string string) :
  exists m',
    decodeSterilize streamId (Some m) = returns m'
    /\ encodeSterilize s (header_map (Some m'))
       = encodeSterilize s (header_map (Some m)).
Proof.
  assert (exists m', decodeSterilize streamId (Some m) = returns m')
    as [m' Hd].
  { unfold decodeSterilize.
    destruct (_ !! SofaPropertyHeader HeaderTimeout); by eexists. }
  exists m'. split; [done |].
  unfold encodeSterilize. cbv zeta.
  rewrite (strip_after_decode s streamId m m' Hd).
  destruct (strip_proxy_headers s m !! HeaderStatus) as [status |]; [| done].
  destruct (negb (Atoi status =? SuccessCode)%Z); [| done].
  by destruct (BuildSofaRespMsg _ _) as [a [b [|]]].
Qed.

(** X20. Decoding and then encoding on an outgoing stream gives back the
    header map, when it holds no proxy header and no status. *)
Theorem decode_encode_round_trip (s : stream) (streamId : string)
    (m : gmap string string) :
  direction s <> InStream ->
  (forall k, k ∈ HeaderStatus :: proxy_headers -> m !! k = None) ->
  exists m',
    decodeSterilize streamId (Some m) = returns m'
    /\ encodeSterilize s (header_map (Some m')) = returns (header_map (Some m)).
Proof.
  intros Hdir Hfree.
  assert (exists m', decodeSterilize streamId (Some m) = returns m')
    as [m' Hd].
  { unfold decodeSterilize.
    destruct (_ !! SofaPropertyHeader HeaderTimeout); by eexists. }
  exists m'. split; [done |].
  apply Z.eqb_neq in Hdir.
  assert (Hs : strip_proxy_headers s m = m).
  { apply map_eq. intros k. rewrite strip_proxy_headers_lookup, Hdir.
    case_bool_decide as Hk; [| done].
    symmetry. apply Hfree. by right. }
  unfold encodeSterilize. cbv zeta.
  rewrite (strip_after_decode s streamId m m' Hd), Hs.
  rewrite (Hfree HeaderStatus) by by left. done.
Qed.

End Helpers.

(** ** An instance of the packages

    Header names and codes in the style of packages [types] and
    [sofarpc]; [Atoi] reads a decimal numeral and gives 0 for anything
    else; the message built is its response status, and building never
    fails. *)

Fixpoint decimal (acc : Z) (s : string) : option Z :=
  match s with
  | EmptyString => Some acc
  | String c s' =>
      let n := Z.of_nat (nat_of_ascii c) in
      if (48 <=? n)%Z && (n <=? 57)%Z then decimal (10 * acc + (n - 48)) s'
      else None
  end.

Definition test_Atoi (s : string) : Z :=
  match s with
  | EmptyString => 0
  | String "-" (String _ _ as s') => default 0%Z (Z.opp <$> decimal 0 s')
  | String "+" (String _ _ as s') => default 0%Z (decimal 0 s')
  | _ => default 0%Z (decimal 0 s)
  end.

Global Instance test_codec : CodecPackage := {|
  Opaque := Z;
  InStream := 1;
  HeaderReqID := "id";
  HeaderTimeout := "timeout";
  SofaPropertyHeader := fun name => "x-mosn-sofarpc-headers-property-" +:+ name;
  HeaderStreamID := "x-mosn-streamid";
  HeaderGlobalTimeout := "x-mosn-global-timeout";
  HeaderTryTimeout := "x-mosn-try-timeout";
  HeaderStatus := "x-mosn-status";
  SuccessCode := 200;
  RouterUnavailableCode := 404;
  NoHealthUpstreamCode := 502;
  UpstreamOverFlowCode := 503;
  CodecExceptionCode := 0;
  DeserialExceptionCode := 401;
  TimeoutExceptionCode := 504;
  RESPONSE_STATUS_CLIENT_SEND_ERROR := 8;
  RESPONSE_STATUS_CODEC_EXCEPTION := 9;
  RESPONSE_STATUS_SERVER_DESERIAL_EXCEPTION := 18;
  RESPONSE_STATUS_TIMEOUT := 7;
  RESPONSE_STATUS_UNKNOWN := 3;
  Atoi := test_Atoi;
  BuildSofaRespMsg := fun m status => (m, (opaque status, true));
|}.

Definition incoming : stream := {| direction := 1; requestId := "7" |}.
Definition outgoing : stream := {| direction := 0; requestId := "7" |}.

(** The headers of a response that the proxy made for a request without
    route. *)
Definition no_route : gmap string string :=
  {[ "x-mosn-status" := "404"; "x-mosn-streamid" := "7"; "service" := "hello" ]}.

(** The headers of a response that succeeded. *)
Definition succeeded : gmap string string :=
  {[ "x-mosn-status" := "200"; "x-mosn-streamid" := "7";
     "x-mosn-try-timeout" := "3000"; "service" := "hello" ]}.

(** The headers of a request as the codec decoded them. *)
Definition request : gmap string string :=
  {[ "x-mosn-sofarpc-headers-property-timeout" := "3000";
     "service" := "hello" ]}.

Example encodeSterilize_no_route :
  encodeSterilize incoming (header_map (Some no_route))
  = returns (header_map (Some
      {[ "x-mosn-sofarpc-headers-property-id" := "7"; "service" := "hello" ]})).
Proof. vm_compute. reflexivity. Qed.

Example decodeSterilize_request :
  decodeSterilize "7" (Some request)
  = returns (<["x-mosn-streamid" := "7"]>
               (<["x-mosn-try-timeout" := "3000"]> request)).
Proof. vm_compute. reflexivity. Qed.

Example sterilize_nil_map :
  decodeSterilize "7" None = assignment_to_entry_in_nil_map
  /\ encodeSterilize incoming (header_map None) = assignment_to_entry_in_nil_map
  /\ encodeSterilize outgoing (header_map None) = returns (header_map None).
Proof. repeat split. Qed.

Lemma encodeSterilize_returns_header_map_witness :
  strip_proxy_headers incoming no_route !! HeaderStatus = Some "404"
  /\ Atoi "404" <> SuccessCode
  /\ BuildSofaRespMsg
       (delete HeaderStatus (strip_proxy_headers incoming no_route))
       (response_status (Atoi "404"))
     = ({[ "x-mosn-sofarpc-headers-property-id" := "7"; "service" := "hello" ]},
        (opaque 8%Z, true))
  /\ encodeSterilize incoming (header_map (Some no_route))
     = returns (header_map (Some
         {[ "x-mosn-sofarpc-headers-property-id" := "7";
            "service" := "hello" ]})).
Proof.
  assert (strip_proxy_headers incoming no_route !! HeaderStatus = Some "404")
    as Hs by (vm_compute; reflexivity).
  assert (Atoi "404" <> SuccessCode) as Hn by (vm_compute; discriminate).
  split; [exact Hs |]. split; [exact Hn |].
  split; [vm_compute; reflexivity |].
  destruct (encodeSterilize_returns_header_map incoming no_route)
    as (m' & Hrun & Hmap).
  rewrite Hrun, (Hmap "404" Hs Hn). vm_compute. reflexivity.
Defined.

Lemma encodeSterilize_strips_proxy_headers_witness :
  no_failure_status incoming succeeded
  /\ exists m',
       encodeSterilize incoming (header_map (Some succeeded))
       = returns (header_map (Some m'))
       /\ m' !! "x-mosn-status" = None
       /\ m' !! "x-mosn-streamid" = None
       /\ m' !! "x-mosn-try-timeout" = None
       /\ m' !! "service" = Some "hello"
       /\ m' !! "x-mosn-sofarpc-headers-property-id" = Some "7".
Proof.
  assert (no_failure_status incoming succeeded) as Hok.
  { intros status Hs. vm_compute in Hs. injection Hs as <-. reflexivity. }
  split; [exact Hok |].
  destruct (encodeSterilize_strips_proxy_headers incoming succeeded Hok)
    as (m' & Hrun & Hgone & Hkept).
  exists m'. split; [exact Hrun |].
  split; [apply Hgone; vm_compute; left |].
  split; [apply Hgone; vm_compute; right; left |].
  split; [apply Hgone; vm_compute; right; right; right; left |].
  split.
  - rewrite (Hkept "service"); [vm_compute; reflexivity |].
    apply (bool_decide_unpack _). vm_compute. exact I.
  - rewrite (Hkept "x-mosn-sofarpc-headers-property-id");
      [vm_compute; reflexivity |].
    apply (bool_decide_unpack _). vm_compute. exact I.
Defined.

Lemma decode_encode_round_trip_witness :
  direction outgoing <> InStream
  /\ (forall k, k ∈ HeaderStatus :: proxy_headers -> request !! k = None)
  /\ exists m',
       decodeSterilize "7" (Some request) = returns m'
       /\ encodeSterilize outgoing (header_map (Some m'))
          = returns (header_map (Some request)).
Proof.
  assert (direction outgoing <> InStream) as Hd by (vm_compute; discriminate).
  assert (forall k, k ∈ HeaderStatus :: proxy_headers -> request !! k = None)
    as Hfree.
  { intros k Hk. vm_compute in Hk.
    repeat (apply elem_of_cons in Hk; destruct Hk as [-> | Hk];
            [vm_compute; reflexivity |]).
    by apply elem_of_nil in Hk. }
  split; [exact Hd |]. split; [exact Hfree |].
  exact (decode_encode_round_trip outgoing "7" request Hd Hfree).
Defined.

End Sofarpc.
